(** * Digital logic circuit simulator: the model of [src/app/page.tsx]

    The React component [CircuitSimulator] keeps its circuit in component
    state (gates, wires, selection, pending connection, drag offset) and
    edits it from event handlers; one effect re-evaluates every gate.  The
    handlers are embedded as functions on an explicit [State], the effect as
    the second half of [dispatch], and the unbounded recursion of
    [calculateGateOutput] with a fuel argument. *)

From Stdlib Require Import String Ascii List ZArith QArith Bool Lia.
From Stdlib Require Import DecimalString DecimalPos DecimalZ Lqa.
Import ListNotations.

Open Scope string_scope.
Open Scope Z_scope.

(** ** Data model *)

Inductive GateType := AND | OR | NOT | INPUT | OUTPUT.

Definition GateType_eqb (a b : GateType) : bool :=
  match a, b with
  | AND, AND | OR, OR | NOT, NOT | INPUT, INPUT | OUTPUT, OUTPUT => true
  | _, _ => false
  end.

(** [interface Gate]; [label?: string] is [None] when undefined. *)
Record Gate := mkGate {
  id : string;
  type : GateType;
  x : Q;
  y : Q;
  inputs : list (option string);
  output : bool;
  label : option string
}.

(** [interface Wire], with its two nested endpoint objects. *)
Record WireFrom := mkFrom { from_gateId : string; from_output : bool }.
Record WireTo := mkTo { to_gateId : string; inputIndex : Z }.
Record Wire := mkWire { wire_id : string; from : WireFrom; to : WireTo }.

(** The [useState] cells of the component.  [connectingFrom] is the object
    [{ gateId }] or null; [dragOffset] is [{ x, y }]. *)
Record State := mkState {
  gates : list Gate;
  wires : list Wire;
  selectedGate : option string;
  connectingFrom : option string;
  dragOffset : Q * Q
}.

Definition initialState : State := mkState [] [] None None (0%Q, 0%Q).

(** ** JavaScript helpers *)

(** [!s] for [s : string | null]: null and the empty string are falsy. *)
Definition falsy (s : option string) : bool :=
  match s with
  | None => true
  | Some s' => (s' =? "")%string
  end.

(** [a === b] on [string | null]. *)
Definition strictEq (a b : option string) : bool :=
  match a, b with
  | None, None => true
  | Some s, Some t => (s =? t)%string
  | _, _ => false
  end.

(** [Array.prototype.findIndex]: the first index whose element satisfies
    [p], or -1. *)
Fixpoint findIndexFrom {A : Type} (p : A -> bool) (l : list A) (i : Z) : Z :=
  match l with
  | [] => -1
  | a :: l' => if p a then i else findIndexFrom p l' (i + 1)
  end.

Definition findIndex {A : Type} (p : A -> bool) (l : list A) : Z :=
  findIndexFrom p l 0.

(** [Array.prototype.indexOf] on an array of [string | null]. *)
Definition indexOf (l : list (option string)) (v : option string) : Z :=
  findIndex (strictEq v) l.

(** [array.map((v, idx) => f(v, idx))] for a callback that may fail to
    return: the callbacks run left to right and the map returns only when
    every one of them did. *)
Fixpoint mapIdxFrom {A B : Type} (f : A -> Z -> option B) (l : list A) (i : Z)
  : option (list B) :=
  match l with
  | [] => Some []
  | a :: l' =>
      match f a i with
      | None => None
      | Some b =>
          match mapIdxFrom f l' (i + 1) with
          | None => None
          | Some bs => Some (b :: bs)
          end
      end
  end.

Fixpoint mapOpt {A B : Type} (f : A -> option B) (l : list A) : option (list B) :=
  match l with
  | [] => Some []
  | a :: l' =>
      match f a with
      | None => None
      | Some b =>
          match mapOpt f l' with
          | None => None
          | Some bs => Some (b :: bs)
          end
      end
  end.

(** ** The evaluator *)

(** [w.to.gateId === gate.id && w.to.inputIndex === idx] *)
Definition terminatesAt (gateId : string) (idx : Z) (w : Wire) : bool :=
  (to_gateId (to w) =? gateId)%string && (inputIndex (to w) =? idx).

Definition hasId (gateId : string) (g : Gate) : bool :=
  (id g =? gateId)%string.

(** [calculateGateOutput], closed over the [gates] and [wires] of the
    render.  The source recursion has no bound; [fuel] bounds its depth and
    [None] stands for a descent that did not return within it. *)
Fixpoint calculateGateOutput (fuel : nat) (gs : list Gate) (ws : list Wire)
  (gate : Gate) : option bool :=
  match fuel with
  | O => None
  | S fuel' =>
      match type gate with
      | INPUT => Some (output gate)
      | _ =>
          match
            mapIdxFrom
              (fun inputGateId idx =>
                 if falsy inputGateId then Some false
                 else
                   match find (terminatesAt (id gate) idx) ws with
                   | None => Some false
                   | Some sourceWire =>
                       match find (hasId (from_gateId (from sourceWire))) gs with
                       | None => Some false
                       | Some sourceGate =>
                           calculateGateOutput fuel' gs ws sourceGate
                       end
                   end)
              (inputs gate) 0
          with
          | None => None
          | Some inputValues =>
              Some
                match type gate with
                | AND =>
                    (length inputValues =? 2)%nat
                    && nth 0 inputValues false && nth 1 inputValues false
                | OR =>
                    (length inputValues =? 2)%nat
                    && (nth 0 inputValues false || nth 1 inputValues false)
                | NOT => negb (nth 0 inputValues false)
                | OUTPUT => nth 0 inputValues false || false
                | INPUT => false
                end
          end
      end
  end.

Definition withOutput (g : Gate) (b : bool) : Gate :=
  mkGate (id g) (type g) (x g) (y g) (inputs g) b (label g).

(** [updateCircuit]: [prevGates.map(gate => ({...gate, output: ...}))]. *)
Definition updateCircuit (fuel : nat) (st : State) : option State :=
  match
    mapOpt
      (fun gate =>
         match calculateGateOutput fuel (gates st) (wires st) gate with
         | None => None
         | Some b => Some (withOutput gate b)
         end)
      (gates st)
  with
  | None => None
  | Some gs' =>
      Some (mkState gs' (wires st) (selectedGate st) (connectingFrom st)
              (dragOffset st))
  end.

(** ** Event handlers *)

(** What a handler did besides computing the next state: whether it called
    [setWires] (always with a freshly built array, so the [wires] dependency
    of the effect sees a new reference) and the text it passed to [alert],
    if any. *)
Record Handled := mkHandled {
  after : State;
  setWiresCalled : bool;
  alerted : option string
}.

Definition quiet (st : State) : Handled := mkHandled st false None.

Definition decimal (n : Z) : string := NilZero.string_of_int (Z.to_int n).

Definition defaultInputs (t : GateType) : list (option string) :=
  match t with
  | NOT | INPUT => [None]
  | OUTPUT => [None]
  | _ => [None; None]
  end.

Definition defaultLabel (t : GateType) : option string :=
  match t with
  | INPUT => Some "IN"
  | OUTPUT => Some "OUT"
  | _ => None
  end.

(** [addGate(type)]; [now] is the value of [Date.now()], [rx] and [ry] the
    two values of [Math.random()]. *)
Definition addGate (t : GateType) (now : Z) (rx ry : Q) (st : State) : Handled :=
  let newGate :=
    mkGate ("gate-" ++ decimal now) t
      (100 + rx * 200)%Q (100 + ry * 200)%Q
      (defaultInputs t)
      (match t with INPUT => false | _ => false end)
      (defaultLabel t) in
  quiet (mkState (gates st ++ [newGate]) (wires st) (selectedGate st)
           (connectingFrom st) (dragOffset st)).

(** The hit test of [handleCanvasMouseDown]; [Math.sqrt(d) <= 15] is
    written [d <= 225]. *)
Definition hit (cx cy : Q) (gate : Gate) : bool :=
  match type gate with
  | INPUT | OUTPUT =>
      let dx := (cx - (x gate + 20))%Q in
      let dy := (cy - (y gate + 20))%Q in
      Qle_bool (dx * dx + dy * dy) 225
  | _ =>
      Qle_bool (x gate) cx && Qle_bool cx (x gate + 60)
      && Qle_bool (y gate) cy && Qle_bool cy (y gate + 40)
  end.

(** [handleCanvasMouseDown]; [cx], [cy] are the canvas-relative pointer
    coordinates. *)
Definition handleCanvasMouseDown (cx cy : Q) (st : State) : Handled :=
  match find (hit cx cy) (gates st) with
  | Some clickedGate =>
      quiet (mkState (gates st) (wires st) (Some (id clickedGate))
               (connectingFrom st)
               ((cx - x clickedGate)%Q, (cy - y clickedGate)%Q))
  | None =>
      quiet (mkState (gates st) (wires st) None (connectingFrom st)
               (dragOffset st))
  end.

Definition moveTo (gx gy : Q) (g : Gate) : Gate :=
  mkGate (id g) (type g) gx gy (inputs g) (output g) (label g).

Definition handleCanvasMouseMove (cx cy : Q) (st : State) : Handled :=
  if falsy (selectedGate st) then quiet st
  else
    quiet (mkState
             (map (fun gate =>
                     if strictEq (Some (id gate)) (selectedGate st)
                     then moveTo (cx - fst (dragOffset st))%Q
                                 (cy - snd (dragOffset st))%Q gate
                     else gate)
                (gates st))
             (wires st) (selectedGate st) (connectingFrom st) (dragOffset st)).

Definition toggleInput (gateId : string) (st : State) : Handled :=
  quiet (mkState
           (map (fun gate =>
                   if (id gate =? gateId)%string && GateType_eqb (type gate) INPUT
                   then withOutput gate (negb (output gate))
                   else gate)
              (gates st))
           (wires st) (selectedGate st) (connectingFrom st) (dragOffset st)).

Definition startConnection (st : State) : Handled :=
  match selectedGate st with
  | None => quiet st
  | Some sel =>
      if (sel =? "")%string then quiet st
      else
        match find (hasId sel) (gates st) with
        | None => quiet st
        | Some gate =>
            if GateType_eqb (type gate) OUTPUT then quiet st
            else quiet (mkState (gates st) (wires st) (selectedGate st)
                          (Some sel) (dragOffset st))
        end
  end.

Definition cancelConnection (st : State) : State :=
  mkState (gates st) (wires st) (selectedGate st) None (dragOffset st).

(** The free-slot search of [completeConnection]. *)
Definition availableInputIndex (ws : list Wire) (toGate : Gate) : Z :=
  findIndex
    (fun input =>
       negb (existsb
               (terminatesAt (id toGate) (indexOf (inputs toGate) input))
               ws))
    (inputs toGate).

(** [completeConnection]; [now] is the value of [Date.now()]. *)
Definition completeConnection (now : Z) (st : State) : Handled :=
  match connectingFrom st, selectedGate st with
  | Some src, Some sel =>
      if (sel =? "")%string then quiet st
      else
        match find (hasId sel) (gates st) with
        | None => quiet (cancelConnection st)
        | Some toGate =>
            if GateType_eqb (type toGate) INPUT then quiet (cancelConnection st)
            else
              let i := availableInputIndex (wires st) toGate in
              if i =? -1 then
                mkHandled (cancelConnection st) false
                  (Some "All inputs are connected")
              else
                let newWire :=
                  mkWire ("wire-" ++ decimal now) (mkFrom src true)
                    (mkTo sel i) in
                mkHandled
                  (mkState (gates st) (wires st ++ [newWire])
                     (selectedGate st) None (dragOffset st))
                  true None
        end
  | _, _ => quiet st
  end.

Definition deleteSelected (st : State) : Handled :=
  match selectedGate st with
  | None => quiet st
  | Some sel =>
      if (sel =? "")%string then quiet st
      else
        mkHandled
          (mkState
             (filter (fun g => negb (id g =? sel)%string) (gates st))
             (filter
                (fun w =>
                   negb (from_gateId (from w) =? sel)%string
                   && negb (to_gateId (to w) =? sel)%string)
                (wires st))
             None (connectingFrom st) (dragOffset st))
          true None
  end.

Definition clearCircuit (st : State) : Handled :=
  mkHandled (mkState [] [] None None (dragOffset st)) true None.

(** ** The user interface as a transition system *)

Inductive Event :=
  | AddGateButton (t : GateType) (now : Z) (rx ry : Q)
  | CanvasMouseDown (cx cy : Q)
  | CanvasMouseMove (cx cy : Q)
  | CanvasMouseUp
  | ToggleInputButton
  | ConnectFromButton
  | ConnectToButton (now : Z)
  | DeleteButton
  | ClearAllButton.

Definition selectedType (st : State) : option GateType :=
  match selectedGate st with
  | None => None
  | Some sel => option_map type (find (hasId sel) (gates st))
  end.

(** Which controls the JSX renders, and so which events can occur. *)
Definition available (ev : Event) (st : State) : bool :=
  match ev with
  | ToggleInputButton =>
      negb (falsy (selectedGate st))
      && match selectedType st with Some INPUT => true | _ => false end
  | ConnectFromButton | DeleteButton => negb (falsy (selectedGate st))
  | ConnectToButton _ =>
      negb (falsy (selectedGate st))
      && match connectingFrom st with Some _ => true | None => false end
  | _ => true
  end.

Definition handle (ev : Event) (st : State) : Handled :=
  match ev with
  | AddGateButton t now rx ry => addGate t now rx ry st
  | CanvasMouseDown cx cy => handleCanvasMouseDown cx cy st
  | CanvasMouseMove cx cy => handleCanvasMouseMove cx cy st
  | CanvasMouseUp => quiet st
  | ToggleInputButton =>
      match selectedGate st with
      | Some sel => toggleInput sel st
      | None => quiet st
      end
  | ConnectFromButton => startConnection st
  | ConnectToButton now => completeConnection now st
  | DeleteButton => deleteSelected st
  | ClearAllButton => clearCircuit st
  end.

(** The second dependency of the refresh effect:
    [gates.filter(g => g.type === 'INPUT').map(g => g.output).join(',')]. *)
Definition inputsKey (gs : list Gate) : string :=
  String.concat ","
    (map (fun g => if output g then "true" else "false")
       (filter (fun g => GateType_eqb (type g) INPUT) gs)).

(** [useEffect(() => updateCircuit(), [wires, inputsKey])] runs after a
    render in which either dependency differs from the previous render. *)
Definition effectDue (before : State) (h : Handled) : bool :=
  setWiresCalled h
  || negb (inputsKey (gates before) =? inputsKey (gates (after h)))%string.

(** One event: the handler, then the render, then the effect if it is due.
    The pass of the effect leaves both dependencies as they are, so it does
    not run a second time. *)
Definition dispatch (fuel : nat) (ev : Event) (st : State) : option State :=
  let h := handle ev st in
  if effectDue st h then updateCircuit fuel (after h) else Some (after h).

Inductive reachable : State -> Prop :=
  | reachable_init : reachable initialState
  | reachable_step : forall st fuel ev st',
      reachable st -> available ev st = true ->
      dispatch fuel ev st = Some st' -> reachable st'.

(** Running a list of events from a state. *)
Fixpoint run (fuel : nat) (evs : list Event) (st : State) : option State :=
  match evs with
  | [] => Some st
  | ev :: evs' =>
      if available ev st then
        match dispatch fuel ev st with
        | Some st' => run fuel evs' st'
        | None => None
        end
      else None
  end.

(** ** Vocabulary of the statements *)

(** The value [calculateGateOutput] returns when every slot reads false. *)
Definition restValue (g : Gate) : bool :=
  match type g with
  | INPUT => output g
  | NOT => true
  | _ => false
  end.

(** Every entry of the gate's [inputs] array is null. *)
Definition allNull (g : Gate) : Prop :=
  forall i, In i (inputs g) -> i = None.

(** No wire terminates at any input slot of the gate. *)
Definition unconnected (ws : list Wire) (g : Gate) : Prop :=
  forall idx, 0 <= idx < Z.of_nat (length (inputs g)) ->
    existsb (terminatesAt (id g) idx) ws = false.

(** Two gate records that differ at most in position and stored output. *)
Definition sameShape (g g' : Gate) : Prop :=
  id g' = id g /\ type g' = type g /\ inputs g' = inputs g.

(** The structural invariant of the states the interface can produce. *)
Record Inv (st : State) : Prop := mkInv {
  inv_inputs : forall g, In g (gates st) -> inputs g = defaultInputs (type g);
  inv_ids : forall g, In g (gates st) -> id g <> "";
  inv_slot0 : forall w, In w (wires st) -> inputIndex (to w) = 0;
  inv_dest : forall w, In w (wires st) ->
    exists g, find (hasId (to_gateId (to w))) (gates st) = Some g
              /\ type g <> INPUT;
  inv_single : NoDup (map to (wires st))
}.

(** ** Example sessions *)

(** An INPUT gate toggled to true and wired into slot 0 of an OR gate. *)
Definition orTrace : list Event :=
  [ AddGateButton INPUT 1 0 0; CanvasMouseDown 120 120; ToggleInputButton;
    AddGateButton OR 2 (1 # 2) (1 # 2); ConnectFromButton;
    CanvasMouseDown 210 210; ConnectToButton 3 ].

Definition orState : State :=
  Eval cbv in
    match run 1 orTrace initialState with
    | Some st => st
    | None => initialState
    end.

Definition orGate : Gate :=
  mkGate "gate-2" OR (400 # 2) (400 # 2) [None; None] false None.

Definition inputGate : Gate :=
  mkGate "gate-1" INPUT 100 100 [None] true (Some "IN").

(** A NOT gate whose output is wired back into its own input slot. *)
Definition loopTrace : list Event :=
  [ AddGateButton NOT 5 0 0; CanvasMouseDown 110 110; ConnectFromButton;
    ConnectToButton 6 ].

Definition loopState : State :=
  Eval cbv in
    match run 1 loopTrace initialState with
    | Some st => st
    | None => initialState
    end.

Definition notGate : Gate :=
  mkGate "gate-5" NOT 100 100 [None] true None.

(** The same session with a second connection pending on the NOT gate. *)
Definition loopAgainState : State :=
  Eval cbv in
    match run 1 (loopTrace ++ [ConnectFromButton]) initialState with
    | Some st => st
    | None => initialState
    end.

(** A NOT gate as [addGate] leaves it. *)
Definition freshNotGate : Gate :=
  mkGate "gate-5" NOT 100 100 [None] false None.

(** A NOT gate whose [inputs] entry is filled in, as the evaluator expects
    of a driven slot, fed by an INPUT gate. *)
Definition drivenNot : Gate :=
  mkGate "gate-9" NOT 300 100 [Some "gate-1"] false None.

Definition drivenWire : Wire :=
  mkWire "wire-10" (mkFrom "gate-1" true) (mkTo "gate-9" 0).

(** [g'] is [g] with a stored output that agrees with [g]'s on INPUT
    gates: what one refresh pass makes of a gate. *)
Definition refreshed (g g' : Gate) : Prop :=
  (exists b, g' = withOutput g b) /\ (type g = INPUT -> output g' = output g).

(** A NOT gate whose [inputs] entry names itself, with the wire that feeds
    its output back into its slot: the shape the evaluator's descent would
    follow. *)
Definition selfDrivenNot : Gate :=
  mkGate "gate-5" NOT 100 100 [Some "gate-5"] false None.

Definition selfWire : Wire :=
  mkWire "wire-6" (mkFrom "gate-5" true) (mkTo "gate-5" 0).

(** ** Vocabulary of the further properties *)

(** Two gate records the evaluator cannot tell apart: same id, kind and
    [inputs], and the same stored output when they are INPUT gates. *)
Definition sameCircuit (g g' : Gate) : Prop :=
  id g' = id g /\ type g' = type g /\ inputs g' = inputs g
  /\ (type g = INPUT -> output g' = output g).

(** The outputs the effect's key is joined from:
    [gates.filter(g => g.type === 'INPUT').map(g => g.output)]. *)
Definition inputOutputs (gs : list Gate) : list bool :=
  map output (filter (fun g => GateType_eqb (type g) INPUT) gs).

(** [bs.join(',')] for an array of booleans. *)
Definition joinBooleans (bs : list bool) : string :=
  String.concat "," (map (fun b : bool => if b then "true" else "false") bs).


(** The line [drawCircuit] strokes for a wire: its two end points and its
    [strokeStyle]. *)
Record Segment := mkSegment {
  fromX : Q;
  fromY : Q;
  toX : Q;
  toY : Q;
  strokeStyle : string
}.

(** The body of [wires.forEach] in [drawCircuit] up to [ctx.stroke()]:
    nothing is drawn for a wire one of whose gates is not found. *)
Definition wireSegment (gs : list Gate) (wire : Wire) : option Segment :=
  match find (hasId (from_gateId (from wire))) gs with
  | None => None
  | Some fromGate =>
      match find (hasId (to_gateId (to wire))) gs with
      | None => None
      | Some toGate =>
          Some (mkSegment
                  (x fromGate + 60)%Q
                  (y fromGate + 20)%Q
                  (x toGate)
                  (y toGate + 10 + inject_Z (inputIndex (to wire)) * 20)%Q
                  (if output fromGate then "#4ade80" else "#6b7280"))
      end
  end.

(** A connection started from a NOT gate that is deleted before the
    connection is completed on an AND gate. *)
Definition danglingTrace : list Event :=
  [ AddGateButton NOT 5 0 0; CanvasMouseDown 110 110; ConnectFromButton;
    DeleteButton; AddGateButton AND 6 0 0; CanvasMouseDown 110 110;
    ConnectToButton 7 ].

Definition danglingState : State :=
  Eval cbv in
    match run 1 danglingTrace initialState with
    | Some st => st
    | None => initialState
    end.

(** The NOT gate of [loopState] selected, with a connection pending from
    it. *)
Definition pendingState : State :=
  Eval cbv in
    match
      run 1 [AddGateButton NOT 5 0 0; CanvasMouseDown 110 110;
             ConnectFromButton] initialState
    with
    | Some st => st
    | None => initialState
    end.

(** An AND gate with both [inputs] entries filled in, fed by two INPUT
    gates. *)
Definition inputA : Gate := mkGate "gate-1" INPUT 100 100 [None] true (Some "IN").
Definition inputB : Gate := mkGate "gate-2" INPUT 100 200 [None] false (Some "IN").
Definition drivenAnd : Gate :=
  mkGate "gate-3" AND 300 150 [Some "gate-1"; Some "gate-2"] false None.
Definition wireA : Wire := mkWire "wire-4" (mkFrom "gate-1" true) (mkTo "gate-3" 0).
Definition wireB : Wire := mkWire "wire-5" (mkFrom "gate-2" true) (mkTo "gate-3" 1).

(** ** Array helpers *)

Section ArrayLemmas.
Context {A B : Type}.

Lemma mapIdxFrom_const (f : A -> Z -> option B) (b : B) (l : list A) :
  forall i,
    (forall a j, In a l -> f a j = Some b) ->
    mapIdxFrom f l i = Some (repeat b (length l)).
Proof.
  induction l as [|a l IH]; intros i Hf; simpl.
  - reflexivity.
  - rewrite (Hf a i (or_introl eq_refl)).
    rewrite IH by (intros a' j Ha'; apply Hf; right; exact Ha').
    reflexivity.
Qed.

Lemma mapIdxFrom_ext (f f' : A -> Z -> option B) (l : list A) :
  forall i,
    (forall a j, In a l -> f a j = f' a j) ->
    mapIdxFrom f l i = mapIdxFrom f' l i.
Proof.
  induction l as [|a l IH]; intros i Hf; simpl.
  - reflexivity.
  - rewrite (Hf a i (or_introl eq_refl)).
    rewrite (IH (i + 1)) by (intros a' j Ha'; apply Hf; right; exact Ha').
    reflexivity.
Qed.

Lemma findIndexFrom_range (p : A -> bool) (l : list A) :
  forall i,
    findIndexFrom p l i = -1
    \/ i <= findIndexFrom p l i < i + Z.of_nat (length l).
Proof.
  induction l as [|a l IH]; intros i; simpl length.
  - left; reflexivity.
  - simpl. destruct (p a).
    + right; lia.
    + destruct (IH (i + 1)) as [H|H]; [left; exact H | right; lia].
Qed.

End ArrayLemmas.

Lemma find_none_iff_existsb {A : Type} (p : A -> bool) (l : list A) :
  find p l = None <-> existsb p l = false.
Proof.
  induction l as [|a l IH]; simpl; [tauto|].
  destruct (p a); simpl; [split; discriminate | exact IH].
Qed.

Lemma GateType_eqb_eq (a b : GateType) : GateType_eqb a b = true <-> a = b.
Proof. destruct a, b; simpl; split; congruence. Qed.

(** ** Evaluation of a gate whose input slots drive nothing *)

Lemma nth_repeat_false (n k : nat) : nth k (repeat false n) false = false.
Proof.
  revert k; induction n as [|n IH]; intros [|k]; simpl; auto.
Qed.

Lemma calculateGateOutput_slots_false fuel gs ws g :
  (forall i j, In i (inputs g) ->
     (if falsy i then Some false
      else
        match find (terminatesAt (id g) j) ws with
        | None => Some false
        | Some sourceWire =>
            match find (hasId (from_gateId (from sourceWire))) gs with
            | None => Some false
            | Some sourceGate => calculateGateOutput fuel gs ws sourceGate
            end
        end) = Some false) ->
  calculateGateOutput (S fuel) gs ws g = Some (restValue g).
Proof.
  intros H. unfold restValue. simpl.
  rewrite (mapIdxFrom_const _ false (inputs g) 0 H).
  rewrite !nth_repeat_false.
  destruct (type g); simpl; try reflexivity.
  - rewrite andb_false_r. reflexivity.
  - rewrite andb_false_r. reflexivity.
Qed.

Lemma calculateGateOutput_allNull fuel gs ws g :
  allNull g -> calculateGateOutput (S fuel) gs ws g = Some (restValue g).
Proof.
  intros Hn. apply calculateGateOutput_slots_false.
  intros i j Hi. rewrite (Hn i Hi). reflexivity.
Qed.

Lemma mapIdxFrom_const_range {A B : Type} (f : A -> Z -> option B) (b : B)
  (l : list A) :
  forall i,
    (forall a j, In a l -> i <= j < i + Z.of_nat (length l) -> f a j = Some b) ->
    mapIdxFrom f l i = Some (repeat b (length l)).
Proof.
  induction l as [|a l IH]; intros i Hf; simpl.
  - reflexivity.
  - rewrite (Hf a i (or_introl eq_refl)) by (simpl length; lia).
    rewrite IH; [reflexivity|].
    intros a' j Ha' Hj. apply Hf; [right; exact Ha' | simpl length; lia].
Qed.

Lemma calculateGateOutput_unconnected fuel gs ws g :
  unconnected ws g -> calculateGateOutput (S fuel) gs ws g = Some (restValue g).
Proof.
  intros Hu. unfold restValue. simpl.
  rewrite (mapIdxFrom_const_range _ false (inputs g) 0).
  - rewrite !nth_repeat_false.
    destruct (type g); simpl; try reflexivity;
      rewrite andb_false_r; reflexivity.
  - intros i j _ Hj. destruct (falsy i); [reflexivity|].
    apply Hu in Hj. apply find_none_iff_existsb in Hj. rewrite Hj. reflexivity.
Qed.

(** ** Lists of gates of the same shape *)

Lemma mapOpt_Forall2 {A B : Type} (f : A -> option B) (l : list A) :
  forall l', mapOpt f l = Some l' -> Forall2 (fun a b => f a = Some b) l l'.
Proof.
  induction l as [|a l IH]; simpl; intros l' H.
  - injection H as <-. constructor.
  - destruct (f a) as [b|] eqn:Hb; [|discriminate].
    destruct (mapOpt f l) as [bs|]; [|discriminate].
    injection H as <-. constructor; [exact Hb | apply IH; reflexivity].
Qed.

Lemma Forall2_map_r {A : Type} (R : A -> A -> Prop) (f : A -> A) (l : list A) :
  (forall a, R a (f a)) -> Forall2 R l (map f l).
Proof. intros H; induction l; simpl; constructor; auto. Qed.

Lemma Forall2_impl {A B : Type} (R R' : A -> B -> Prop) (l : list A) (l' : list B) :
  (forall a b, R a b -> R' a b) -> Forall2 R l l' -> Forall2 R' l l'.
Proof. intros H F; induction F; constructor; auto. Qed.

Lemma Forall2_In_r {A B : Type} (R : A -> B -> Prop) (l : list A) (l' : list B) :
  Forall2 R l l' -> forall b, In b l' -> exists a, In a l /\ R a b.
Proof.
  intros F; induction F as [|a b l l' Hab F IH]; intros b' Hb'.
  - destruct Hb'.
  - destruct Hb' as [<-|Hb'].
    + exists a; split; [left; reflexivity | exact Hab].
    + destruct (IH b' Hb') as [a' [Ha' HR]]. exists a'; split; [right|]; auto.
Qed.

Lemma find_Forall2 {A B : Type} (R : A -> B -> Prop) (p : A -> bool)
  (q : B -> bool) (l : list A) (l' : list B) :
  Forall2 R l l' -> (forall a b, R a b -> p a = q b) ->
  match find p l, find q l' with
  | Some a, Some b => R a b
  | None, None => True
  | _, _ => False
  end.
Proof.
  intros F Hpq; induction F as [|a b l l' Hab F IH]; simpl.
  - exact I.
  - rewrite <- (Hpq a b Hab). destruct (p a); [exact Hab | exact IH].
Qed.

Lemma sameShape_refl g : sameShape g g.
Proof. repeat split. Qed.

Lemma sameShape_withOutput g b : sameShape g (withOutput g b).
Proof. repeat split. Qed.

Lemma sameShape_moveTo g gx gy : sameShape g (moveTo gx gy g).
Proof. repeat split. Qed.

Lemma sameShape_hasId i g g' : sameShape g g' -> hasId i g = hasId i g'.
Proof. intros [Hid _]. unfold hasId. rewrite Hid. reflexivity. Qed.

Lemma updateCircuit_wires fuel st st' :
  updateCircuit fuel st = Some st' -> wires st' = wires st.
Proof.
  unfold updateCircuit. destruct (mapOpt _ _); [|discriminate].
  intros H; injection H as <-. reflexivity.
Qed.

Lemma updateCircuit_gates fuel st st' :
  updateCircuit fuel st = Some st' ->
  Forall2
    (fun g g' =>
       exists b, calculateGateOutput fuel (gates st) (wires st) g = Some b
                 /\ g' = withOutput g b)
    (gates st) (gates st').
Proof.
  unfold updateCircuit.
  destruct (mapOpt _ _) as [gs'|] eqn:Hm; [|discriminate].
  intros H; injection H as <-. simpl.
  apply mapOpt_Forall2 in Hm.
  eapply Forall2_impl; [|exact Hm]. simpl.
  intros g g' Hg.
  destruct (calculateGateOutput fuel (gates st) (wires st) g) as [b|];
    [|discriminate].
  injection Hg as <-. exists b; split; reflexivity.
Qed.

Lemma updateCircuit_sameShape fuel st st' :
  updateCircuit fuel st = Some st' -> Forall2 sameShape (gates st) (gates st').
Proof.
  intros H. eapply Forall2_impl; [|exact (updateCircuit_gates _ _ _ H)].
  intros g g' [b [_ ->]]. apply sameShape_withOutput.
Qed.

(** ** The invariant is kept by every handler and by the refresh *)

Lemma Inv_initial : Inv initialState.
Proof.
  constructor; simpl; try (intros ? []). constructor.
Qed.

Lemma Inv_sameShape st st' :
  Inv st -> Forall2 sameShape (gates st) (gates st') -> wires st' = wires st ->
  Inv st'.
Proof.
  intros [Hin Hid H0 Hd Hs] F Hw. constructor; rewrite ?Hw; auto.
  - intros g' Hg'. destruct (Forall2_In_r _ _ _ F g' Hg') as [g [Hg [_ [Ht Hi]]]].
    rewrite Hi, Ht. apply Hin; exact Hg.
  - intros g' Hg'. destruct (Forall2_In_r _ _ _ F g' Hg') as [g [Hg [Hi _]]].
    rewrite Hi. apply Hid; exact Hg.
  - intros w Hw'. destruct (Hd w Hw') as [g [Hf Ht]].
    pose proof (find_Forall2 sameShape (hasId (to_gateId (to w)))
                  (hasId (to_gateId (to w))) _ _ F
                  (sameShape_hasId _)) as HF.
    rewrite Hf in HF.
    destruct (find (hasId (to_gateId (to w))) (gates st')) as [g'|];
      [|contradiction].
    exists g'; split; [reflexivity|].
    destruct HF as [_ [HT _]]. rewrite HT. exact Ht.
Qed.

Lemma Inv_updateCircuit fuel st st' :
  Inv st -> updateCircuit fuel st = Some st' -> Inv st'.
Proof.
  intros HI H. eapply Inv_sameShape; eauto using updateCircuit_sameShape,
    updateCircuit_wires.
Qed.

Lemma find_app_Some {A : Type} (p : A -> bool) (l l' : list A) (a : A) :
  find p l = Some a -> find p (l ++ l') = Some a.
Proof.
  induction l as [|b l IH]; simpl; [discriminate|].
  destruct (p b); auto.
Qed.

Lemma find_hasId_id i gs g : find (hasId i) gs = Some g -> id g = i.
Proof.
  intros H. apply find_some in H. destruct H as [_ H].
  apply String.eqb_eq in H. exact H.
Qed.

Lemma find_filter_other sel d gs :
  d <> sel ->
  find (hasId d) (filter (fun g => negb (id g =? sel)%string) gs)
  = find (hasId d) gs.
Proof.
  intros Hd. induction gs as [|g gs IH]; simpl; [reflexivity|].
  destruct (id g =? sel)%string eqn:E; simpl.
  - apply String.eqb_eq in E.
    assert (hasId d g = false) as ->.
    { unfold hasId. apply String.eqb_neq. congruence. }
    exact IH.
  - destruct (hasId d g); [reflexivity | exact IH].
Qed.

Lemma NoDup_snoc {A : Type} (l : list A) (a : A) :
  NoDup l -> ~ In a l -> NoDup (l ++ [a]).
Proof.
  induction l as [|b l IH]; simpl; intros Hn Ha.
  - constructor; [intros [] | constructor].
  - inversion Hn as [|? ? Hb Hl]; subst. constructor.
    + rewrite in_app_iff. simpl. intros [H|[H|[]]]; [contradiction|].
      apply Ha; left; symmetry; exact H.
    + apply IH; [exact Hl | intros H; apply Ha; right; exact H].
Qed.

Lemma single_driver_filter (keep : Wire -> bool) (ws : list Wire) :
  NoDup (map to ws) -> NoDup (map to (filter keep ws)).
Proof.
  intros Hn. induction ws as [|w ws IH]; simpl; [constructor|].
  simpl in Hn. apply NoDup_cons_iff in Hn. destruct Hn as [Hw Hws].
  destruct (keep w); simpl; [|exact (IH Hws)].
  apply NoDup_cons; [|exact (IH Hws)].
  rewrite in_map_iff. intros [w' [E H]]. apply filter_In in H.
  apply Hw. rewrite in_map_iff. exists w'; tauto.
Qed.

(** With the freshly created [inputs] arrays the free-slot search looks at
    slot 0 only: [indexOf(null)] is 0 for every entry. *)
Lemma availableInputIndex_default ws g :
  inputs g = defaultInputs (type g) ->
  availableInputIndex ws g
  = if existsb (terminatesAt (id g) 0) ws then -1 else 0.
Proof.
  intros Hi. unfold availableInputIndex. rewrite Hi.
  destruct (type g); simpl; unfold findIndex, indexOf, findIndex; simpl;
    destruct (existsb (terminatesAt (id g) 0) ws); reflexivity.
Qed.

Lemma decimal_gate_id_nonempty now : "gate-" ++ decimal now <> "".
Proof. simpl. discriminate. Qed.

Lemma Inv_addGate t now rx ry st : Inv st -> Inv (after (addGate t now rx ry st)).
Proof.
  intros [Hin Hid H0 Hd Hs]. constructor; simpl; auto.
  - intros g Hg. apply in_app_iff in Hg. destruct Hg as [Hg|[<-|[]]]; auto.
  - intros g Hg. apply in_app_iff in Hg. destruct Hg as [Hg|[<-|[]]]; auto.
    simpl. discriminate.
  - intros w Hw. destruct (Hd w Hw) as [g [Hf Ht]].
    exists g; split; [apply find_app_Some; exact Hf | exact Ht].
Qed.

Lemma Inv_same st st' :
  Inv st -> gates st' = gates st -> wires st' = wires st -> Inv st'.
Proof.
  intros HI Hg Hw. apply (Inv_sameShape st st' HI); [|exact Hw].
  rewrite Hg. clear. induction (gates st); constructor;
    auto using sameShape_refl.
Qed.

Lemma Inv_handleCanvasMouseDown cx cy st :
  Inv st -> Inv (after (handleCanvasMouseDown cx cy st)).
Proof.
  intros HI. unfold handleCanvasMouseDown.
  destruct (find (hit cx cy) (gates st)); apply (Inv_same st); auto.
Qed.

Lemma Inv_handleCanvasMouseMove cx cy st :
  Inv st -> Inv (after (handleCanvasMouseMove cx cy st)).
Proof.
  intros HI. unfold handleCanvasMouseMove.
  destruct (falsy (selectedGate st)); [exact HI|].
  apply (Inv_sameShape st); [exact HI | | reflexivity].
  unfold quiet; cbn [after gates].
  apply Forall2_map_r. intros g.
  destruct (strictEq (Some (id g)) (selectedGate st));
    [apply sameShape_moveTo | apply sameShape_refl].
Qed.

Lemma Inv_toggleInput gateId st : Inv st -> Inv (after (toggleInput gateId st)).
Proof.
  intros HI. apply (Inv_sameShape st); [exact HI | | reflexivity].
  unfold toggleInput, quiet; cbn [after gates].
  apply Forall2_map_r. intros g.
  destruct ((id g =? gateId)%string && GateType_eqb (type g) INPUT);
    [apply sameShape_withOutput | apply sameShape_refl].
Qed.

Lemma Inv_startConnection st : Inv st -> Inv (after (startConnection st)).
Proof.
  intros HI. unfold startConnection.
  destruct (selectedGate st) as [sel|]; [|exact HI].
  destruct (sel =? "")%string; [exact HI|].
  destruct (find (hasId sel) (gates st)) as [g|]; [|exact HI].
  destruct (GateType_eqb (type g) OUTPUT); [exact HI|].
  apply (Inv_same st); auto.
Qed.

Lemma Inv_completeConnection now st :
  Inv st -> Inv (after (completeConnection now st)).
Proof.
  intros HI. unfold completeConnection.
  destruct (connectingFrom st) as [src|]; [|exact HI].
  destruct (selectedGate st) as [sel|]; [|exact HI].
  destruct (sel =? "")%string; [exact HI|].
  destruct (find (hasId sel) (gates st)) as [toGate|] eqn:Hf;
    [|apply (Inv_same st); auto].
  destruct (GateType_eqb (type toGate) INPUT) eqn:Ht;
    [apply (Inv_same st); auto|].
  pose proof (find_some _ _ Hf) as [HtoIn _].
  pose proof (find_hasId_id _ _ _ Hf) as Hsel.
  rewrite (availableInputIndex_default _ _ (inv_inputs st HI toGate HtoIn)).
  destruct (existsb (terminatesAt (id toGate) 0) (wires st)) eqn:He; simpl;
    [apply (Inv_same st); auto|].
  destruct HI as [Hin Hid H0 Hd Hs]. constructor; simpl; auto.
  - intros w Hw. apply in_app_iff in Hw. destruct Hw as [Hw|[<-|[]]]; auto.
  - intros w Hw. apply in_app_iff in Hw. destruct Hw as [Hw|[<-|[]]]; auto.
    simpl. exists toGate; split; [exact Hf|].
    intros E. rewrite E in Ht. discriminate.
  - rewrite map_app. simpl. apply NoDup_snoc; [exact Hs|].
    intros H. apply in_map_iff in H. destruct H as [w [Ew Hw]].
    assert (existsb (terminatesAt (id toGate) 0) (wires st) = true) as Ht'.
    { apply existsb_exists. exists w; split; [exact Hw|].
      unfold terminatesAt. rewrite Ew. simpl. rewrite Hsel.
      rewrite String.eqb_refl. reflexivity. }
    congruence.
Qed.

Lemma Inv_deleteSelected st : Inv st -> Inv (after (deleteSelected st)).
Proof.
  intros HI. unfold deleteSelected.
  destruct (selectedGate st) as [sel|]; [|exact HI].
  destruct (sel =? "")%string; [exact HI|].
  destruct HI as [Hin Hid H0 Hd Hs]. constructor; simpl.
  - intros g Hg. apply filter_In in Hg. apply Hin; tauto.
  - intros g Hg. apply filter_In in Hg. apply Hid; tauto.
  - intros w Hw. apply filter_In in Hw. apply H0; tauto.
  - intros w Hw. apply filter_In in Hw. destruct Hw as [Hw Hp].
    apply andb_true_iff in Hp. destruct Hp as [_ Hp].
    apply negb_true_iff, String.eqb_neq in Hp.
    rewrite (find_filter_other _ _ _ Hp). apply Hd; exact Hw.
  - apply single_driver_filter; exact Hs.
Qed.

Lemma Inv_clearCircuit st : Inv (after (clearCircuit st)).
Proof.
  constructor; simpl; try (intros ? []). constructor.
Qed.

Lemma Inv_handle ev st : Inv st -> Inv (after (handle ev st)).
Proof.
  intros HI. destruct ev; cbn [handle].
  - apply Inv_addGate; exact HI.
  - apply Inv_handleCanvasMouseDown; exact HI.
  - apply Inv_handleCanvasMouseMove; exact HI.
  - exact HI.
  - destruct (selectedGate st); [apply Inv_toggleInput|]; exact HI.
  - apply Inv_startConnection; exact HI.
  - apply Inv_completeConnection; exact HI.
  - apply Inv_deleteSelected; exact HI.
  - apply Inv_clearCircuit.
Qed.

Lemma Inv_dispatch fuel ev st st' :
  Inv st -> dispatch fuel ev st = Some st' -> Inv st'.
Proof.
  intros HI. unfold dispatch.
  pose proof (Inv_handle ev st HI) as HI'.
  destruct (effectDue st (handle ev st)).
  - apply Inv_updateCircuit; exact HI'.
  - intros H; injection H as <-; exact HI'.
Qed.

Lemma reachable_Inv st : reachable st -> Inv st.
Proof.
  induction 1 as [|st fuel ev st' _ IH _ Hd];
    eauto using Inv_initial, Inv_dispatch.
Qed.

Lemma Inv_allNull st g : Inv st -> In g (gates st) -> allNull g.
Proof.
  intros HI Hg i Hi. rewrite (inv_inputs st HI g Hg) in Hi.
  destruct (type g); simpl in Hi; intuition congruence.
Qed.

(** ** Sessions *)

Lemma run_reachable fuel evs :
  forall st st', reachable st -> run fuel evs st = Some st' -> reachable st'.
Proof.
  induction evs as [|ev evs IH]; simpl; intros st st' Hr H.
  - injection H as <-. exact Hr.
  - destruct (available ev st) eqn:Ha; [|discriminate].
    destruct (dispatch fuel ev st) as [st1|] eqn:Hd; [|discriminate].
    apply (IH st1 st'); [|exact H].
    exact (reachable_step st fuel ev st1 Hr Ha Hd).
Qed.

Lemma orState_run : run 1 orTrace initialState = Some orState.
Proof. reflexivity. Qed.

Lemma loopState_run : run 1 loopTrace initialState = Some loopState.
Proof. reflexivity. Qed.

Lemma loopAgainState_run :
  run 1 (loopTrace ++ [ConnectFromButton]) initialState = Some loopAgainState.
Proof. reflexivity. Qed.

Lemma orState_reachable : reachable orState.
Proof. exact (run_reachable 1 orTrace _ _ reachable_init orState_run). Qed.

Lemma loopState_reachable : reachable loopState.
Proof. exact (run_reachable 1 loopTrace _ _ reachable_init loopState_run). Qed.

Lemma loopAgainState_reachable : reachable loopAgainState.
Proof.
  exact (run_reachable 1 _ _ _ reachable_init loopAgainState_run).
Qed.

(** The NOT gate of [loopState] feeds itself. *)
Lemma loopState_is_cyclic :
  gates loopState = [notGate]
  /\ wires loopState
     = [mkWire "wire-6" (mkFrom "gate-5" true) (mkTo "gate-5" 0)].
Proof. split; reflexivity. Qed.

(** ** The evaluator on unconnected and on driven slots *)

(** C6.  A gate none of whose input slots has a wire terminating at it
    always evaluates, never fails: an AND or OR gate to false, a NOT gate
    to true. *)
Theorem unconnected_gate_value fuel gs ws g :
  unconnected ws g ->
  (type g = AND \/ type g = OR ->
     calculateGateOutput (S fuel) gs ws g = Some false)
  /\ (type g = NOT -> calculateGateOutput (S fuel) gs ws g = Some true)
  /\ exists b, calculateGateOutput (S fuel) gs ws g = Some b.
Proof.
  intros Hu. rewrite (calculateGateOutput_unconnected fuel gs ws g Hu).
  unfold restValue. repeat split.
  - intros [E|E]; rewrite E; reflexivity.
  - intros E; rewrite E; reflexivity.
  - eexists; reflexivity.
Qed.

Lemma unconnected_gate_value_witness :
  unconnected [] orGate
  /\ calculateGateOutput 1 [orGate; freshNotGate] [] orGate = Some false.
Proof.
  assert (unconnected [] orGate) as Hu by (intros idx _; reflexivity).
  split; [exact Hu|].
  apply (unconnected_gate_value 0 [orGate; freshNotGate] [] orGate Hu).
  right; reflexivity.
Defined.

(** The path the evaluator takes for a slot whose [inputs] entry is filled
    in: the wire into the slot is looked up, then its source gate, and the
    slot reads the source's output. *)
Lemma calculateGateOutput_driven_NOT fuel gs ws g s w src :
  type g = NOT -> inputs g = [Some s] -> s <> "" ->
  find (terminatesAt (id g) 0) ws = Some w ->
  find (hasId (from_gateId (from w))) gs = Some src ->
  calculateGateOutput (S fuel) gs ws g
  = option_map negb (calculateGateOutput fuel gs ws src).
Proof.
  intros Ht Hi Hs Hw Hsrc. simpl. rewrite Ht, Hi. simpl.
  apply String.eqb_neq in Hs. rewrite Hs, Hw, Hsrc.
  destruct (calculateGateOutput fuel gs ws src); reflexivity.
Qed.

Lemma calculateGateOutput_drivenNot :
  calculateGateOutput 2 [inputGate; drivenNot] [drivenWire] drivenNot
  = Some false.
Proof. reflexivity. Qed.

(** ** Invariants of the reachable states *)

(** C9.  In every reachable state every entry of every gate's [inputs]
    array is null, so the evaluation of a gate stops at the null test of
    each slot: its result is the same with no wires and no gates to look
    up, and a depth of one call suffices. *)
Theorem inputs_stay_null st g :
  reachable st -> In g (gates st) ->
  allNull g
  /\ forall fuel gs ws,
       calculateGateOutput (S fuel) gs ws g = calculateGateOutput 1 [] [] g.
Proof.
  intros Hr Hg.
  pose proof (Inv_allNull st g (reachable_Inv st Hr) Hg) as Hn.
  split; [exact Hn|].
  intros fuel gs ws. rewrite !calculateGateOutput_allNull by exact Hn.
  reflexivity.
Qed.

Lemma inputs_stay_null_witness :
  In orGate (gates orState)
  /\ allNull orGate
  /\ forall fuel gs ws,
       calculateGateOutput (S fuel) gs ws orGate
       = calculateGateOutput 1 [] [] orGate.
Proof.
  assert (In orGate (gates orState)) as Hg by (right; left; reflexivity).
  split; [exact Hg|].
  exact (inputs_stay_null orState orGate orState_reachable Hg).
Defined.

Lemma completeConnection_occupied now st sel g :
  Inv st -> selectedGate st = Some sel ->
  find (hasId sel) (gates st) = Some g ->
  existsb (terminatesAt sel 0) (wires st) = true ->
  after (completeConnection now st) =
    match connectingFrom st with
    | Some _ => cancelConnection st
    | None => st
    end
  /\ setWiresCalled (completeConnection now st) = false.
Proof.
  intros HI Hsel Hf He. unfold completeConnection. rewrite Hsel.
  destruct (connectingFrom st) as [src|]; [|split; reflexivity].
  destruct (sel =? "")%string eqn:E.
  - apply String.eqb_eq in E.
    pose proof (find_some _ _ Hf) as [Hin _].
    pose proof (find_hasId_id _ _ _ Hf) as Hid.
    exfalso. apply (inv_ids st HI g Hin). congruence.
  - rewrite Hf.
    destruct (GateType_eqb (type g) INPUT); [split; reflexivity|].
    pose proof (find_some _ _ Hf) as [Hin _].
    rewrite (availableInputIndex_default _ _ (inv_inputs st HI g Hin)).
    rewrite (find_hasId_id _ _ _ Hf), He. split; reflexivity.
Qed.

(** C10.  In every reachable state every wire terminates at slot 0; the
    free-slot search yields 0 or -1 for every gate; and when a wire already
    terminates at slot 0 of the selected gate, completing a connection adds
    no wire. *)
Theorem wires_only_reach_slot0 st :
  reachable st ->
  (forall w, In w (wires st) -> inputIndex (to w) = 0)
  /\ (forall g, In g (gates st) ->
        availableInputIndex (wires st) g = 0
        \/ availableInputIndex (wires st) g = -1)
  /\ (forall now sel,
        selectedGate st = Some sel ->
        existsb (terminatesAt sel 0) (wires st) = true ->
        wires (after (completeConnection now st)) = wires st).
Proof.
  intros Hr. pose proof (reachable_Inv st Hr) as HI. repeat split.
  - exact (inv_slot0 st HI).
  - intros g Hg.
    rewrite (availableInputIndex_default _ _ (inv_inputs st HI g Hg)).
    destruct (existsb _ _); [right | left]; reflexivity.
  - intros now sel Hsel He.
    apply existsb_exists in He. destruct He as [w [Hw Ht]].
    unfold terminatesAt in Ht. apply andb_true_iff in Ht.
    destruct Ht as [Ht _]. apply String.eqb_eq in Ht.
    destruct (inv_dest st HI w Hw) as [g [Hf _]]. rewrite Ht in Hf.
    assert (existsb (terminatesAt sel 0) (wires st) = true) as He.
    { apply existsb_exists. exists w; split; [exact Hw|].
      unfold terminatesAt. rewrite Ht, String.eqb_refl.
      rewrite (inv_slot0 st HI w Hw). reflexivity. }
    destruct (completeConnection_occupied now st sel g HI Hsel Hf He)
      as [-> _].
    destruct (connectingFrom st); reflexivity.
Qed.

Lemma wires_only_reach_slot0_witness :
  (forall w, In w (wires loopAgainState) -> inputIndex (to w) = 0)
  /\ wires (after (completeConnection 7 loopAgainState))
     = wires loopAgainState.
Proof.
  destruct (wires_only_reach_slot0 loopAgainState loopAgainState_reachable)
    as [H0 [_ Hfull]].
  split; [exact H0|].
  apply (Hfull 7 "gate-5"); reflexivity.
Defined.

(** ** Termination on reachable states *)

Lemma mapOpt_map {A B : Type} (f : A -> option B) (h : A -> B) (l : list A) :
  (forall a, In a l -> f a = Some (h a)) -> mapOpt f l = Some (map h l).
Proof.
  induction l as [|a l IH]; simpl; intros H; [reflexivity|].
  rewrite (H a (or_introl eq_refl)).
  rewrite IH by (intros a' Ha'; apply H; right; exact Ha').
  reflexivity.
Qed.

Lemma updateCircuit_Inv_value fuel st :
  Inv st ->
  updateCircuit (S fuel) st
  = Some (mkState (map (fun g => withOutput g (restValue g)) (gates st))
            (wires st) (selectedGate st) (connectingFrom st) (dragOffset st)).
Proof.
  intros HI. unfold updateCircuit.
  rewrite (mapOpt_map _ (fun g => withOutput g (restValue g))); [reflexivity|].
  intros g Hg.
  rewrite (calculateGateOutput_allNull fuel _ _ g (Inv_allNull st g HI Hg)).
  reflexivity.
Qed.

Lemma dispatch_Inv_total fuel ev st :
  Inv st -> exists st', dispatch (S fuel) ev st = Some st'.
Proof.
  intros HI. unfold dispatch.
  destruct (effectDue st (handle ev st)).
  - rewrite (updateCircuit_Inv_value fuel _ (Inv_handle ev st HI)).
    eexists; reflexivity.
  - eexists; reflexivity.
Qed.

(** C5.  In every reachable state, wire cycles included, the evaluation of
    every gate returns a boolean at any recursion depth of one or more, and
    every event, with the full-graph refresh it may trigger, produces the
    next state. *)
Theorem evaluation_terminates st :
  reachable st ->
  (forall g, In g (gates st) ->
     exists b, forall fuel,
       calculateGateOutput (S fuel) (gates st) (wires st) g = Some b)
  /\ (forall fuel, exists st', updateCircuit (S fuel) st = Some st')
  /\ (forall fuel ev, exists st', dispatch (S fuel) ev st = Some st').
Proof.
  intros Hr. pose proof (reachable_Inv st Hr) as HI. repeat split.
  - intros g Hg. exists (restValue g). intros fuel.
    apply calculateGateOutput_allNull. exact (Inv_allNull st g HI Hg).
  - intros fuel. rewrite (updateCircuit_Inv_value fuel st HI).
    eexists; reflexivity.
  - intros fuel ev. exact (dispatch_Inv_total fuel ev st HI).
Qed.

(** The NOT gate wired back into its own input slot evaluates to true. *)
Lemma evaluation_terminates_witness :
  In (mkWire "wire-6" (mkFrom "gate-5" true) (mkTo "gate-5" 0))
    (wires loopState)
  /\ (exists b, forall fuel,
        calculateGateOutput (S fuel) (gates loopState) (wires loopState)
          notGate = Some b)
  /\ calculateGateOutput 1 (gates loopState) (wires loopState) notGate
     = Some true.
Proof.
  split; [left; reflexivity|].
  split; [|reflexivity].
  destruct (evaluation_terminates loopState loopState_reachable) as [H _].
  apply (H notGate). left; reflexivity.
Defined.

(** ** Connections *)

(** C2.  In every reachable state where a wire already terminates at slot
    [s] of the selected gate [d], completing a pending connection is
    rejected with the alert [All inputs are connected]: no wire is added,
    gates and wires are as before, only the pending connection is dropped;
    and no two wires of the state terminate at the same gate and slot. *)
Theorem second_driver_rejected st now d src w s :
  reachable st ->
  selectedGate st = Some d -> connectingFrom st = Some src ->
  In w (wires st) -> to w = mkTo d s ->
  completeConnection now st
  = mkHandled (cancelConnection st) false (Some "All inputs are connected")
  /\ gates (after (completeConnection now st)) = gates st
  /\ wires (after (completeConnection now st)) = wires st
  /\ NoDup (map to (wires st)).
Proof.
  intros Hr Hsel Hsrc Hw Hto. pose proof (reachable_Inv st Hr) as HI.
  destruct (inv_dest st HI w Hw) as [g [Hf Ht]].
  pose proof (inv_slot0 st HI w Hw) as H0.
  rewrite Hto in Hf, H0. simpl in Hf, H0. subst s.
  pose proof (find_some _ _ Hf) as [Hin _].
  pose proof (find_hasId_id _ _ _ Hf) as Hid.
  assert (completeConnection now st
          = mkHandled (cancelConnection st) false
              (Some "All inputs are connected")) as E.
  { unfold completeConnection. rewrite Hsel, Hsrc.
    assert ((d =? "")%string = false) as ->.
    { apply String.eqb_neq. intros E. apply (inv_ids st HI g Hin).
      congruence. }
    rewrite Hf.
    assert (GateType_eqb (type g) INPUT = false) as ->.
    { destruct (GateType_eqb (type g) INPUT) eqn:E; [|reflexivity].
      apply GateType_eqb_eq in E. contradiction. }
    rewrite (availableInputIndex_default _ _ (inv_inputs st HI g Hin)).
    assert (existsb (terminatesAt (id g) 0) (wires st) = true) as ->.
    { apply existsb_exists. exists w; split; [exact Hw|].
      unfold terminatesAt. rewrite Hto, Hid. simpl.
      rewrite String.eqb_refl. reflexivity. }
    reflexivity. }
  rewrite E. repeat split. exact (inv_single st HI).
Qed.

Lemma second_driver_rejected_witness :
  alerted (completeConnection 7 loopAgainState)
  = Some "All inputs are connected"
  /\ wires (after (completeConnection 7 loopAgainState))
     = wires loopAgainState.
Proof.
  destruct (second_driver_rejected loopAgainState 7 "gate-5" "gate-5"
              (mkWire "wire-6" (mkFrom "gate-5" true) (mkTo "gate-5" 0)) 0
              loopAgainState_reachable eq_refl eq_refl
              (or_introl eq_refl) eq_refl)
    as [E [_ [Hw _]]].
  split; [rewrite E; reflexivity | exact Hw].
Defined.

(** The rejected connection triggers no refresh either: the whole event
    only drops the pending connection. *)
Lemma rejected_connection_dispatch st now fuel :
  alerted (completeConnection now st) = Some "All inputs are connected" ->
  dispatch fuel (ConnectToButton now) st = Some (cancelConnection st).
Proof.
  unfold dispatch, effectDue. cbn [handle].
  unfold completeConnection.
  destruct (connectingFrom st) as [src|]; [|discriminate].
  destruct (selectedGate st) as [sel|]; [|discriminate].
  destruct (sel =? "")%string; [discriminate|].
  destruct (find (hasId sel) (gates st)) as [g|]; [|discriminate].
  destruct (GateType_eqb (type g) INPUT); [discriminate|].
  destruct (availableInputIndex (wires st) g =? -1); [|discriminate].
  intros _. cbn [after setWiresCalled cancelConnection gates].
  rewrite String.eqb_refl. reflexivity.
Qed.

(** ** Deleting a gate *)

(** C4.  Deleting the selected gate [sel] is one transition whose result
    keeps exactly the gates whose id is not [sel] and exactly the wires
    neither of whose endpoints is [sel]; the refresh that follows changes
    no wire and no gate id, so no wire of the next state references the
    removed gate. *)
Theorem deleteSelected_cascades st sel :
  selectedGate st = Some sel -> sel <> "" ->
  (forall g, In g (gates (after (deleteSelected st)))
     <-> In g (gates st) /\ id g <> sel)
  /\ (forall w, In w (wires (after (deleteSelected st)))
        <-> In w (wires st)
            /\ from_gateId (from w) <> sel /\ to_gateId (to w) <> sel)
  /\ (forall fuel st', dispatch fuel DeleteButton st = Some st' ->
        (forall g, In g (gates st') -> id g <> sel)
        /\ (forall w, In w (wires st') ->
              from_gateId (from w) <> sel /\ to_gateId (to w) <> sel)).
Proof.
  intros Hsel Hne.
  assert (deleteSelected st
          = mkHandled
              (mkState
                 (filter (fun g => negb (id g =? sel)%string) (gates st))
                 (filter
                    (fun w =>
                       negb (from_gateId (from w) =? sel)%string
                       && negb (to_gateId (to w) =? sel)%string)
                    (wires st))
                 None (connectingFrom st) (dragOffset st))
              true None) as E.
  { unfold deleteSelected. rewrite Hsel.
    apply String.eqb_neq in Hne. rewrite Hne. reflexivity. }
  assert (forall g, In g (gates (after (deleteSelected st)))
                    <-> In g (gates st) /\ id g <> sel) as Hg.
  { intros g. rewrite E. cbn [after gates]. rewrite filter_In.
    rewrite negb_true_iff, String.eqb_neq. reflexivity. }
  assert (forall w, In w (wires (after (deleteSelected st)))
                    <-> In w (wires st)
                        /\ from_gateId (from w) <> sel
                        /\ to_gateId (to w) <> sel) as Hw.
  { intros w. rewrite E. cbn [after wires]. rewrite filter_In.
    rewrite andb_true_iff, !negb_true_iff, !String.eqb_neq. reflexivity. }
  split; [exact Hg|]. split; [exact Hw|].
  intros fuel st'. unfold dispatch, effectDue. cbn [handle].
  rewrite E at 1. cbn [setWiresCalled orb].
  intros Hu. split.
  - intros g' Hg'.
    destruct (Forall2_In_r _ _ _ (updateCircuit_sameShape _ _ _ Hu) g' Hg')
      as [g [Hin [Hid _]]].
    rewrite Hid. apply Hg in Hin. tauto.
  - intros w Hin. rewrite (updateCircuit_wires _ _ _ Hu) in Hin.
    apply Hw in Hin. tauto.
Qed.

Lemma deleteSelected_cascades_witness :
  wires orState <> []
  /\ forall w, In w (wires (after (deleteSelected orState)))
       <-> In w (wires orState)
           /\ from_gateId (from w) <> "gate-2"
           /\ to_gateId (to w) <> "gate-2".
Proof.
  split; [discriminate|].
  assert ("gate-2" <> "") as Hne by discriminate.
  destruct (deleteSelected_cascades orState "gate-2" eq_refl Hne)
    as [_ [Hw _]].
  exact Hw.
Defined.

Lemma deleteSelected_orState :
  dispatch 1 DeleteButton orState
  = Some (mkState [inputGate] [] None None (20 # 2, 20 # 2)).
Proof. reflexivity. Qed.

(** ** Toggling *)

Lemma map_fixed {A : Type} (f : A -> A) (l : list A) :
  (forall a, In a l -> f a = a) -> map f l = l.
Proof.
  induction l as [|a l IH]; simpl; intros H; [reflexivity|].
  rewrite (H a (or_introl eq_refl)).
  rewrite IH by (intros a' Ha'; apply H; right; exact Ha').
  reflexivity.
Qed.

(** C7, as the code has it.  For a gate id that names no INPUT gate,
    [toggleInput] is a silent no-op: the state is returned as it was, no
    alert is raised, and the Toggle Input button is not rendered while such
    a gate is selected. *)
Theorem toggleInput_non_input_silent st gateId :
  (forall g, In g (gates st) -> id g = gateId -> type g <> INPUT) ->
  toggleInput gateId st = quiet st
  /\ alerted (toggleInput gateId st) = None
  /\ (selectedGate st = Some gateId -> available ToggleInputButton st = false).
Proof.
  intros H. split; [|split].
  - unfold toggleInput, quiet. rewrite map_fixed.
    + destruct st; reflexivity.
    + intros g Hg.
      destruct (id g =? gateId)%string eqn:E; [|reflexivity].
      apply String.eqb_eq in E.
      destruct (GateType_eqb (type g) INPUT) eqn:Et; [|reflexivity].
      apply GateType_eqb_eq in Et. exfalso. exact (H g Hg E Et).
  - reflexivity.
  - intros Hsel. unfold available, selectedType. rewrite Hsel.
    destruct (find (hasId gateId) (gates st)) as [g|] eqn:Hf; simpl.
    + pose proof (find_some _ _ Hf) as [Hin _].
      pose proof (H g Hin (find_hasId_id _ _ _ Hf)) as Ht.
      destruct (type g); try apply andb_false_r. contradiction.
    + apply andb_false_r.
Qed.

Lemma toggleInput_non_input_silent_witness :
  toggleInput "gate-2" orState = quiet orState.
Proof.
  apply (toggleInput_non_input_silent orState "gate-2").
  intros g [<-|[<-|[]]]; simpl; discriminate.
Defined.

(** Toggling the NOT gate of [loopState], which is no INPUT gate, raises
    no error of any kind. *)
Lemma toggleInput_raises_nothing :
  (forall g, In g (gates loopState) -> id g = "gate-5" -> type g <> INPUT)
  /\ ~ (exists e, alerted (toggleInput "gate-5" loopState) = Some e).
Proof.
  split.
  - intros g [<-|[]] _. discriminate.
  - intros [e He]. discriminate He.
Qed.

(** ** The refresh pass *)

Lemma refreshed_hasId i g g' : refreshed g g' -> hasId i g = hasId i g'.
Proof. intros [[b ->] _]. reflexivity. Qed.

(** The evaluator reads the stored output of INPUT gates only. *)
Lemma calculateGateOutput_refreshed fuel ws gs gs' :
  Forall2 refreshed gs gs' ->
  forall g g', refreshed g g' ->
    calculateGateOutput fuel gs' ws g' = calculateGateOutput fuel gs ws g.
Proof.
  intros F. induction fuel as [|fuel IH]; intros g g' HR; [reflexivity|].
  destruct HR as [[b ->] Hout]. cbn [calculateGateOutput].
  change (type (withOutput g b)) with (type g).
  change (inputs (withOutput g b)) with (inputs g).
  change (id (withOutput g b)) with (id g).
  assert (mapIdxFrom
            (fun inputGateId idx =>
               if falsy inputGateId then Some false
               else
                 match find (terminatesAt (id g) idx) ws with
                 | None => Some false
                 | Some sourceWire =>
                     match find (hasId (from_gateId (from sourceWire))) gs' with
                     | None => Some false
                     | Some sourceGate =>
                         calculateGateOutput fuel gs' ws sourceGate
                     end
                 end)
            (inputs g) 0
          = mapIdxFrom
              (fun inputGateId idx =>
                 if falsy inputGateId then Some false
                 else
                   match find (terminatesAt (id g) idx) ws with
                   | None => Some false
                   | Some sourceWire =>
                       match find (hasId (from_gateId (from sourceWire))) gs with
                       | None => Some false
                       | Some sourceGate =>
                           calculateGateOutput fuel gs ws sourceGate
                       end
                   end)
              (inputs g) 0) as ->.
  { apply mapIdxFrom_ext. intros i j _.
    destruct (falsy i); [reflexivity|].
    destruct (find (terminatesAt (id g) j) ws) as [w|]; [|reflexivity].
    pose proof (find_Forall2 refreshed (hasId (from_gateId (from w)))
                  (hasId (from_gateId (from w))) gs gs' F
                  (refreshed_hasId _)) as HF.
    destruct (find (hasId (from_gateId (from w))) gs) as [sg|],
             (find (hasId (from_gateId (from w))) gs') as [sg'|];
      try contradiction; [|reflexivity].
    apply IH; exact HF. }
  destruct (type g) eqn:Ht; try reflexivity.
  rewrite Hout by reflexivity. reflexivity.
Qed.

Lemma updateCircuit_refreshed fuel st st' :
  updateCircuit fuel st = Some st' -> Forall2 refreshed (gates st) (gates st').
Proof.
  intros H. eapply Forall2_impl; [|exact (updateCircuit_gates _ _ _ H)].
  intros g g' [b [Hb ->]]. split; [exists b; reflexivity|].
  intros Ht. destruct fuel as [|fuel]; [discriminate|].
  simpl in Hb. rewrite Ht in Hb. injection Hb as <-. reflexivity.
Qed.

(** After a refresh pass the stored output of every gate is the value the
    evaluator computes for it in the refreshed state. *)
Lemma updateCircuit_consistent fuel st st' :
  updateCircuit fuel st = Some st' ->
  forall g', In g' (gates st') ->
    calculateGateOutput fuel (gates st') (wires st') g' = Some (output g').
Proof.
  intros H g' Hg'.
  pose proof (updateCircuit_refreshed _ _ _ H) as F.
  destruct (Forall2_In_r _ _ _ (updateCircuit_gates _ _ _ H) g' Hg')
    as [g [Hg [b [Hb E]]]].
  destruct (Forall2_In_r _ _ _ F g' Hg') as [g0 [_ HR]].
  rewrite (updateCircuit_wires _ _ _ H).
  assert (refreshed g g') as HR'.
  { split; [exists b; exact E|]. intros Ht. subst g'.
    destruct fuel as [|fuel]; [discriminate|].
    simpl in Hb. rewrite Ht in Hb. injection Hb as <-. reflexivity. }
  rewrite (calculateGateOutput_refreshed fuel (wires st) _ _ F g g' HR').
  rewrite Hb, E. reflexivity.
Qed.

Lemma mapOpt_fixed {A : Type} (f : A -> option A) (l : list A) :
  (forall a, In a l -> f a = Some a) -> mapOpt f l = Some l.
Proof.
  intros H. rewrite (mapOpt_map f (fun a => a) l H). rewrite map_id.
  reflexivity.
Qed.

(** C8.  A full-graph refresh that is run again on its own result, with
    no mutation in between, returns that result unchanged: every gate keeps
    the output the first pass stored. *)
Theorem updateCircuit_idempotent fuel st st' :
  updateCircuit fuel st = Some st' -> updateCircuit fuel st' = Some st'.
Proof.
  intros H. pose proof (updateCircuit_consistent _ _ _ H) as Hc.
  unfold updateCircuit. rewrite mapOpt_fixed.
  - destruct st'; reflexivity.
  - intros g' Hg'. rewrite (Hc g' Hg'). destruct g'; reflexivity.
Qed.

Lemma updateCircuit_idempotent_witness :
  exists st',
    updateCircuit 1 loopState = Some st'
    /\ updateCircuit 1 st' = Some st'.
Proof.
  exists loopState.
  assert (updateCircuit 1 loopState = Some loopState) as H by reflexivity.
  split; [exact H|].
  exact (updateCircuit_idempotent 1 loopState loopState H).
Defined.

(** ** Where the stored outputs and the wires part from the evaluation *)

(** C1, on the code.  In [orState] a wire runs from the INPUT gate, whose
    stored value is true and which evaluates to true, to slot 0 of the OR
    gate; the OR gate nevertheless evaluates to false at every depth,
    because its [inputs] entry for the slot is null and the slot reads
    false before any wire is looked up. *)
Theorem driven_slot_reads_false :
  In orGate (gates orState)
  /\ find (terminatesAt (id orGate) 0) (wires orState)
     = Some (mkWire "wire-3" (mkFrom "gate-1" true) (mkTo "gate-2" 0))
  /\ find (hasId "gate-1") (gates orState) = Some inputGate
  /\ calculateGateOutput 1 (gates orState) (wires orState) inputGate
     = Some true
  /\ forall fuel,
       calculateGateOutput (S fuel) (gates orState) (wires orState) orGate
       = Some false.
Proof.
  split; [right; left; reflexivity|].
  split; [reflexivity|]. split; [reflexivity|]. split; [reflexivity|].
  intros fuel. reflexivity.
Qed.

Lemma inputsKey_snoc gs g :
  type g <> INPUT -> inputsKey (gs ++ [g]) = inputsKey gs.
Proof.
  intros Ht. unfold inputsKey. rewrite filter_app. simpl.
  destruct (GateType_eqb (type g) INPUT) eqn:E.
  - apply GateType_eqb_eq in E. contradiction.
  - rewrite app_nil_r. reflexivity.
Qed.

(** Adding a gate that is no INPUT gate changes neither dependency of the
    refresh effect, so no refresh follows it. *)
Lemma addGate_skips_refresh fuel t now rx ry st :
  t <> INPUT ->
  dispatch fuel (AddGateButton t now rx ry) st
  = Some (after (addGate t now rx ry st)).
Proof.
  intros Ht. unfold dispatch, effectDue. cbn [handle].
  unfold addGate, quiet. cbn [after setWiresCalled gates orb].
  rewrite inputsKey_snoc by exact Ht.
  rewrite String.eqb_refl. reflexivity.
Qed.

(** C3, on the code.  The first event of a session adds a NOT gate: the
    next state stores false as its output, while the evaluator computes
    true for it in that state. *)
Theorem fresh_NOT_gate_is_stale :
  available (AddGateButton NOT 5 0 0) initialState = true
  /\ dispatch 1 (AddGateButton NOT 5 0 0) initialState
     = Some (mkState [freshNotGate] [] None None (0%Q, 0%Q))
  /\ output freshNotGate = false
  /\ forall fuel,
       calculateGateOutput (S fuel) [freshNotGate] [] freshNotGate = Some true.
Proof.
  split; [reflexivity|]. split; [reflexivity|]. split; [reflexivity|].
  intros fuel. reflexivity.
Qed.

(** The events that do trigger the refresh leave every stored output equal
    to the evaluated one. *)
Lemma dispatch_refresh_consistent fuel ev st st' :
  effectDue st (handle ev st) = true ->
  dispatch fuel ev st = Some st' ->
  forall g, In g (gates st') ->
    calculateGateOutput fuel (gates st') (wires st') g = Some (output g).
Proof.
  unfold dispatch. intros -> H. exact (updateCircuit_consistent _ _ _ H).
Qed.

(** ** The free-slot search on arbitrary [inputs] arrays *)

Lemma strictEq_eq a b : strictEq a b = true <-> a = b.
Proof.
  destruct a as [s|], b as [t|]; simpl; split; try congruence.
  - intros H. apply String.eqb_eq in H. congruence.
  - intros H. injection H as ->. apply String.eqb_refl.
Qed.

Lemma findIndexFrom_found {A : Type} (p : A -> bool) (l : list A) :
  forall s i, 0 <= s -> findIndexFrom p l s = i -> i <> -1 ->
    s <= i
    /\ exists a, nth_error l (Z.to_nat (i - s)) = Some a /\ p a = true.
Proof.
  induction l as [|a l IH]; simpl; intros s i Hs Hi Hne.
  - congruence.
  - destruct (p a) eqn:Hp.
    + subst i. split; [lia|]. exists a. rewrite Z.sub_diag. simpl. auto.
    + destruct (IH (s + 1) i ltac:(lia) Hi Hne) as [Hle [b [Hn Hb]]].
      split; [lia|]. exists b. split; [|exact Hb].
      replace (Z.to_nat (i - s)) with (S (Z.to_nat (i - (s + 1)))) by lia.
      exact Hn.
Qed.

Lemma findIndexFrom_first {A : Type} (p : A -> bool) (l : list A) :
  forall n s a, 0 <= s -> nth_error l n = Some a -> p a = true ->
    s <= findIndexFrom p l s <= s + Z.of_nat n.
Proof.
  induction l as [|b l IH]; intros n s a Hs Hn Hp.
  - destruct n; discriminate.
  - simpl. destruct (p b) eqn:Hb; [lia|].
    destruct n as [|n]; simpl in Hn.
    + injection Hn as ->. congruence.
    + pose proof (IH n (s + 1) a ltac:(lia) Hn Hp). lia.
Qed.

(** The slot the search returns is one at which no wire terminates. *)
Lemma availableInputIndex_free ws g i :
  availableInputIndex ws g = i -> i <> -1 ->
  existsb (terminatesAt (id g) i) ws = false.
Proof.
  unfold availableInputIndex, findIndex. intros Hi Hne.
  destruct (findIndexFrom_found _ _ 0 i ltac:(lia) Hi Hne)
    as [Hle [a [Hn Hp]]].
  rewrite Z.sub_0_r in Hn. apply negb_true_iff in Hp.
  remember (indexOf (inputs g) a) as k eqn:Hk.
  assert (0 <= k <= i) as Hki.
  { subst k. unfold indexOf, findIndex.
    pose proof (findIndexFrom_first (strictEq a) (inputs g) (Z.to_nat i) 0 a
                  ltac:(lia) Hn (proj2 (strictEq_eq a a) eq_refl)).
    lia. }
  assert (i <= k) as Hik.
  { symmetry in Hk. unfold indexOf, findIndex in Hk.
    destruct (findIndexFrom_found _ _ 0 k ltac:(lia) Hk ltac:(lia))
      as [_ [b [Hnb Hb]]].
    rewrite Z.sub_0_r in Hnb. apply strictEq_eq in Hb. subst b.
    pose proof (findIndexFrom_first
                  (fun input =>
                     negb (existsb
                             (terminatesAt (id g) (indexOf (inputs g) input))
                             ws))
                  (inputs g) (Z.to_nat k) 0 a ltac:(lia) Hnb) as Hf.
    unfold indexOf, findIndex in Hf, Hk. cbv beta in Hf.
    rewrite Hk, Hp in Hf. specialize (Hf eq_refl).
    unfold indexOf, findIndex in Hi. rewrite Hi in Hf. lia. }
  assert (k = i) as <- by lia. exact Hp.
Qed.

(** In any state whatever, a wire that [completeConnection] adds goes to a
    slot of the selected gate at which no wire terminated before. *)
Lemma completeConnection_adds_to_free_slot now st :
  setWiresCalled (completeConnection now st) = true ->
  exists newWire,
    wires (after (completeConnection now st)) = (wires st ++ [newWire])%list
    /\ selectedGate st = Some (to_gateId (to newWire))
    /\ existsb
         (terminatesAt (to_gateId (to newWire)) (inputIndex (to newWire)))
         (wires st) = false.
Proof.
  unfold completeConnection.
  destruct (connectingFrom st) as [src|]; [|discriminate].
  destruct (selectedGate st) as [sel|]; [|discriminate].
  destruct (sel =? "")%string; [discriminate|].
  destruct (find (hasId sel) (gates st)) as [g|] eqn:Hf; [|discriminate].
  destruct (GateType_eqb (type g) INPUT); [discriminate|].
  destruct (availableInputIndex (wires st) g =? -1) eqn:E; [discriminate|].
  intros _. apply Z.eqb_neq in E. eexists. cbn [after wires].
  split; [reflexivity|]. cbn [to to_gateId inputIndex].
  split; [reflexivity|].
  rewrite <- (find_hasId_id _ _ _ Hf).
  exact (availableInputIndex_free _ _ _ eq_refl E).
Qed.

(** The descent itself has no cycle guard: on a gate whose filled-in slot
    is fed by its own output it returns at no depth. *)
Lemma calculateGateOutput_self_driven fuel :
  calculateGateOutput fuel [selfDrivenNot] [selfWire] selfDrivenNot = None.
Proof.
  induction fuel as [|fuel IH]; [reflexivity|].
  cbn [calculateGateOutput]. change (type selfDrivenNot) with NOT.
  change (inputs selfDrivenNot) with [Some "gate-5"].
  cbn [mapIdxFrom falsy].
  change (("gate-5" =? "")%string) with false. cbv iota.
  change (find (terminatesAt (id selfDrivenNot) 0) [selfWire])
    with (Some selfWire). cbv iota.
  change (find (hasId (from_gateId (from selfWire))) [selfDrivenNot])
    with (Some selfDrivenNot). cbv iota.
  rewrite IH. reflexivity.
Qed.

(** ** The key of the refresh effect *)

Lemma inputsKey_joinBooleans gs : inputsKey gs = joinBooleans (inputOutputs gs).
Proof.
  unfold inputsKey, joinBooleans, inputOutputs. rewrite map_map. reflexivity.
Qed.

Lemma joinBooleans_cons_nonempty b bs : joinBooleans (b :: bs) <> "".
Proof.
  unfold joinBooleans. destruct b, bs as [|c bs]; simpl; discriminate.
Qed.

(** The joined text determines the sequence of booleans. *)
Lemma joinBooleans_inj bs :
  forall bs', joinBooleans bs = joinBooleans bs' -> bs = bs'.
Proof.
  induction bs as [|b bs IH]; intros [|b' bs'] H.
  - reflexivity.
  - symmetry in H. destruct (joinBooleans_cons_nonempty _ _ H).
  - destruct (joinBooleans_cons_nonempty _ _ H).
  - assert (b = b' /\ joinBooleans bs = joinBooleans bs') as [-> Ht].
    { unfold joinBooleans in *.
      destruct b, b', bs as [|c bs], bs' as [|c' bs'];
        cbn [map String.concat String.append] in H |- *;
        try discriminate H; try (split; reflexivity);
        try (destruct c; discriminate H);
        try (destruct c'; discriminate H);
        injection H as H; split; try reflexivity; exact H. }
    f_equal. apply IH. exact Ht.
Qed.

Lemma inputOutputs_app gs gs' :
  inputOutputs (gs ++ gs') = (inputOutputs gs ++ inputOutputs gs')%list.
Proof. unfold inputOutputs. rewrite filter_app, map_app. reflexivity. Qed.

Lemma inputOutputs_map f gs :
  (forall g, type (f g) = type g /\ output (f g) = output g) ->
  inputOutputs (map f gs) = inputOutputs gs.
Proof.
  intros Hf. induction gs as [|g gs IH]; [reflexivity|].
  unfold inputOutputs in *. simpl. destruct (Hf g) as [Ht Ho]. rewrite Ht.
  destruct (GateType_eqb (type g) INPUT); simpl; rewrite IH; congruence.
Qed.

Lemma effectDue_key st h :
  effectDue st h = true <->
  setWiresCalled h = true
  \/ inputOutputs (gates st) <> inputOutputs (gates (after h)).
Proof.
  unfold effectDue. rewrite orb_true_iff, negb_true_iff, String.eqb_neq.
  rewrite !inputsKey_joinBooleans. split; intros [H|H]; auto; right.
  - intros E. apply H. rewrite E. reflexivity.
  - intros E. apply H. apply joinBooleans_inj. exact E.
Qed.

Lemma toggleInput_inputOutputs gateId gs :
  inputOutputs
    (map (fun gate =>
            if (id gate =? gateId)%string && GateType_eqb (type gate) INPUT
            then withOutput gate (negb (output gate))
            else gate) gs)
  = inputOutputs gs
  <-> forall g, In g gs -> id g = gateId -> type g <> INPUT.
Proof.
  induction gs as [|g gs IH]; simpl.
  - split; [intros _ g [] | reflexivity].
  - unfold inputOutputs in *. simpl.
    destruct (GateType_eqb (type g) INPUT) eqn:Et.
    + destruct (id g =? gateId)%string eqn:Ei; simpl.
      * rewrite Et. simpl. split.
        -- intros H. injection H as H _. destruct (output g); discriminate.
        -- intros H. exfalso.
           apply (H g (or_introl eq_refl));
             [apply String.eqb_eq | apply GateType_eqb_eq]; assumption.
      * rewrite Et. simpl. split.
        -- intros H. injection H as H. intros g' [<-|Hg'] Hid.
           ++ apply String.eqb_neq in Ei. contradiction.
           ++ apply (proj1 IH H g' Hg' Hid).
        -- intros H. f_equal. apply IH. intros g' Hg'. apply H. right; exact Hg'.
    + rewrite andb_false_r. rewrite Et. split.
      * intros H g' [<-|Hg'] Hid.
        -- intros E. apply GateType_eqb_eq in E. congruence.
        -- apply (proj1 IH H g' Hg' Hid).
      * intros H. apply IH. intros g' Hg'. apply H. right; exact Hg'.
Qed.

(** X1.  The refresh effect runs after exactly these events: Clear All;
    Delete with a gate selected; Connect To when it adds a wire; adding an
    INPUT gate; and Toggle Input when the selected id names an INPUT gate.
    Mouse events, Connect From, a rejected Connect To and the adding of any
    other gate leave both dependencies as they were. *)
Theorem refresh_runs_exactly_when st ev :
  effectDue st (handle ev st) = true <->
  match ev with
  | AddGateButton t _ _ _ => t = INPUT
  | ToggleInputButton =>
      exists sel g, selectedGate st = Some sel /\ In g (gates st)
                    /\ id g = sel /\ type g = INPUT
  | ConnectToButton now =>
      length (wires (after (completeConnection now st)))
      = S (length (wires st))
  | DeleteButton => falsy (selectedGate st) = false
  | ClearAllButton => True
  | CanvasMouseDown _ _ | CanvasMouseMove _ _ | CanvasMouseUp
  | ConnectFromButton => False
  end.
Proof.
  rewrite effectDue_key. destruct ev; cbn [handle].
  - (* addGate *)
    unfold addGate, quiet. cbn [setWiresCalled after gates].
    rewrite inputOutputs_app. unfold inputOutputs at 3. simpl.
    destruct t; simpl; rewrite ?app_nil_r; split;
      try (intros [H|H]; [discriminate H | congruence]);
      try discriminate; intros _; right; intros E;
      apply (f_equal (@length bool)) in E; rewrite length_app in E;
      simpl in E; lia.
  - (* mouse down *)
    unfold handleCanvasMouseDown.
    destruct (find (hit cx cy) (gates st)); simpl; split;
      try contradiction; intros [H|H]; [discriminate | congruence
                                        | discriminate | congruence].
  - (* mouse move *)
    unfold handleCanvasMouseMove.
    destruct (falsy (selectedGate st)); unfold quiet;
      cbn [setWiresCalled after gates]; split; try contradiction.
    + intros [H|H]; [discriminate | congruence].
    + intros [H|H]; [discriminate|]. apply H. symmetry.
      apply inputOutputs_map. intros g.
      destruct (strictEq (Some (id g)) (selectedGate st)); split; reflexivity.
  - (* mouse up *)
    simpl. split; [intros [H|H]; [discriminate | congruence] | contradiction].
  - (* toggle *)
    destruct (selectedGate st) as [sel|] eqn:Hsel.
    + unfold toggleInput, quiet. cbn [setWiresCalled after gates]. split.
      * intros [H|H]; [discriminate|].
        destruct (existsb
                    (fun g => (id g =? sel)%string
                              && GateType_eqb (type g) INPUT) (gates st))
          eqn:Ex.
        -- apply existsb_exists in Ex. destruct Ex as [g [Hg Hp]].
           apply andb_true_iff in Hp. destruct Hp as [Hi Ht].
           exists sel, g. repeat split; auto.
           ++ apply String.eqb_eq; exact Hi.
           ++ apply GateType_eqb_eq; exact Ht.
        -- exfalso. apply H. symmetry. apply toggleInput_inputOutputs.
           intros g Hg Hid Ht.
           assert (existsb
                     (fun g => (id g =? sel)%string
                               && GateType_eqb (type g) INPUT) (gates st)
                   = true) as Ex'.
           { apply existsb_exists. exists g; split; [exact Hg|].
             rewrite Hid, String.eqb_refl, Ht. reflexivity. }
           congruence.
      * intros [sel' [g [E [Hg [Hid Ht]]]]]. injection E as <-. right.
        intros E. symmetry in E.
        apply (proj1 (toggleInput_inputOutputs sel (gates st)) E g Hg Hid Ht).
    + simpl. split; [intros [H|H]; [discriminate | congruence]|].
      intros [sel [g [E _]]]. discriminate.
  - (* startConnection *)
    unfold startConnection.
    destruct (selectedGate st) as [sel|]; simpl;
      [destruct (sel =? "")%string; simpl;
       [|destruct (find (hasId sel) (gates st)) as [g|]; simpl;
         [destruct (GateType_eqb (type g) OUTPUT); simpl|]]|];
      (split; [intros [H|H]; [discriminate | congruence] | contradiction]).
  - (* completeConnection *)
    unfold completeConnection.
    destruct (connectingFrom st) as [src|]; simpl;
      [destruct (selectedGate st) as [sel|]; simpl;
       [destruct (sel =? "")%string; simpl;
        [|destruct (find (hasId sel) (gates st)) as [g|]; simpl;
          [destruct (GateType_eqb (type g) INPUT); simpl;
           [|destruct (availableInputIndex (wires st) g =? -1); simpl]|]]|]|];
      rewrite ?length_app; simpl;
      (split; [intros [H|H]; [try discriminate; lia | congruence] | ]);
      try (intros H; lia); intros _; left; reflexivity.
  - (* deleteSelected *)
    unfold deleteSelected, falsy.
    destruct (selectedGate st) as [sel|]; simpl;
      [destruct (sel =? "")%string; simpl|];
      (split; [intros [H|H]; try discriminate; try congruence; reflexivity|]);
      try discriminate; intros _; left; reflexivity.
  - (* clear *)
    simpl. split; [trivial | intros _; left; reflexivity].
Qed.

(** ** What the evaluator reads *)

Lemma sameCircuit_hasId i g g' : sameCircuit g g' -> hasId i g = hasId i g'.
Proof. intros [Hid _]. unfold hasId. rewrite Hid. reflexivity. Qed.

Lemma calculateGateOutput_sameCircuit fuel ws gs gs' g g' :
  Forall2 sameCircuit gs gs' -> sameCircuit g g' ->
  calculateGateOutput fuel gs' ws g' = calculateGateOutput fuel gs ws g.
Proof.
  intros F. revert g g'.
  induction fuel as [|fuel IH]; intros g g' HR; [reflexivity|].
  destruct HR as [Hid [Ht [Hi Hout]]]. cbn [calculateGateOutput].
  rewrite Ht, Hi, Hid.
  assert (mapIdxFrom
            (fun inputGateId idx =>
               if falsy inputGateId then Some false
               else
                 match find (terminatesAt (id g) idx) ws with
                 | None => Some false
                 | Some sourceWire =>
                     match find (hasId (from_gateId (from sourceWire))) gs' with
                     | None => Some false
                     | Some sourceGate =>
                         calculateGateOutput fuel gs' ws sourceGate
                     end
                 end)
            (inputs g) 0
          = mapIdxFrom
              (fun inputGateId idx =>
                 if falsy inputGateId then Some false
                 else
                   match find (terminatesAt (id g) idx) ws with
                   | None => Some false
                   | Some sourceWire =>
                       match find (hasId (from_gateId (from sourceWire))) gs with
                       | None => Some false
                       | Some sourceGate =>
                           calculateGateOutput fuel gs ws sourceGate
                       end
                   end)
              (inputs g) 0) as ->.
  { apply mapIdxFrom_ext. intros i j _.
    destruct (falsy i); [reflexivity|].
    destruct (find (terminatesAt (id g) j) ws) as [w|]; [|reflexivity].
    pose proof (find_Forall2 sameCircuit (hasId (from_gateId (from w)))
                  (hasId (from_gateId (from w))) gs gs' F
                  (sameCircuit_hasId _)) as HF.
    destruct (find (hasId (from_gateId (from w))) gs) as [sg|],
             (find (hasId (from_gateId (from w))) gs') as [sg'|];
      try contradiction; [|reflexivity].
    apply IH; exact HF. }
  destruct (type g) eqn:Hty; try reflexivity.
  rewrite Hout by reflexivity. reflexivity.
Qed.

(** X2.  The value of a gate depends on the ids, kinds and [inputs] arrays
    of the gates, on the wires, and on the stored outputs of INPUT gates,
    and on nothing else: positions, labels and the stored outputs of all
    other gates are never read. *)
Theorem evaluation_reads_structure_only fuel ws gs gs' g g' :
  Forall2 sameCircuit gs gs' -> sameCircuit g g' ->
  calculateGateOutput fuel gs' ws g' = calculateGateOutput fuel gs ws g.
Proof. apply calculateGateOutput_sameCircuit. Qed.

Lemma evaluation_reads_structure_only_witness :
  calculateGateOutput 2
    [inputGate; mkGate "gate-9" NOT 0 0 [Some "gate-1"] true (Some "n")]
    [drivenWire]
    (mkGate "gate-9" NOT 0 0 [Some "gate-1"] true (Some "n"))
  = calculateGateOutput 2 [inputGate; drivenNot] [drivenWire] drivenNot.
Proof.
  apply evaluation_reads_structure_only.
  - constructor; [|constructor; [|constructor]];
      (split; [reflexivity|]); (split; [reflexivity|]);
      (split; [reflexivity|]); simpl; intros H; try reflexivity;
      discriminate H.
  - split; [reflexivity|]. split; [reflexivity|]. split; [reflexivity|].
    simpl. intros H. discriminate H.
Defined.

(** ** Pointer events *)

Lemma Qle_bool_refl_plus (a b : Q) : (0 <= b)%Q -> Qle_bool a (a + b) = true.
Proof.
  intros Hb. apply Qle_bool_iff.
  rewrite <- (Qplus_0_r a) at 1. apply Qplus_le_r. exact Hb.
Qed.

Lemma handleCanvasMouseDown_none cx cy st :
  selectedGate (after (handleCanvasMouseDown cx cy st)) = None
  <-> forall g, In g (gates st) -> hit cx cy g = false.
Proof.
  unfold handleCanvasMouseDown.
  destruct (find (hit cx cy) (gates st)) as [g|] eqn:Hf; simpl.
  - split; [discriminate|]. intros H.
    apply find_some in Hf. destruct Hf as [Hin Hh].
    rewrite (H g Hin) in Hh. discriminate.
  - split; [|reflexivity]. intros _ g Hg. exact (find_none _ _ Hf g Hg).
Qed.

(** X3.  A mouse press selects a gate exactly when some gate is under the
    pointer; the gate selected is under the pointer, and it is the first
    such gate in the order the gates were added.  A press on empty canvas
    clears the selection.  Gates, wires and the pending connection are
    never touched. *)
Theorem mouse_down_selects_first_hit cx cy st :
  (selectedGate (after (handleCanvasMouseDown cx cy st)) = None
   <-> forall g, In g (gates st) -> hit cx cy g = false)
  /\ (forall i,
        selectedGate (after (handleCanvasMouseDown cx cy st)) = Some i ->
        exists before g rest,
          gates st = (before ++ g :: rest)%list
          /\ id g = i /\ hit cx cy g = true
          /\ forall g', In g' before -> hit cx cy g' = false)
  /\ gates (after (handleCanvasMouseDown cx cy st)) = gates st
  /\ wires (after (handleCanvasMouseDown cx cy st)) = wires st
  /\ connectingFrom (after (handleCanvasMouseDown cx cy st))
     = connectingFrom st.
Proof.
  assert (forall gs g,
            find (hit cx cy) gs = Some g ->
            exists before rest,
              gs = (before ++ g :: rest)%list /\ hit cx cy g = true
              /\ forall g', In g' before -> hit cx cy g' = false) as Hsplit.
  { induction gs as [|a gs IH]; simpl; intros g H; [discriminate|].
    destruct (hit cx cy a) eqn:Ha.
    - injection H as <-. exists [], gs. repeat split; auto. intros ? [].
    - destruct (IH g H) as [before [rest [E [Hg Hb]]]].
      exists (a :: before), rest. rewrite E. repeat split; auto.
      intros g' [<-|Hg']; auto. }
  split; [apply handleCanvasMouseDown_none|].
  unfold handleCanvasMouseDown.
  destruct (find (hit cx cy) (gates st)) as [g|] eqn:Hf; simpl.
  - repeat split. intros i E. injection E as <-.
    destruct (Hsplit _ _ Hf) as [before [rest [E [Hg Hb]]]].
    exists before, g, rest. auto.
  - repeat split. discriminate.
Qed.

(** X4.  The point 20 pixels right of and below a gate's position is
    inside the gate for the hit test, whatever its kind: pressing there
    always selects some gate. *)
Theorem gate_is_hit_at_its_anchor st g :
  In g (gates st) ->
  hit (x g + 20) (y g + 20) g = true
  /\ selectedGate
       (after (handleCanvasMouseDown (x g + 20) (y g + 20) st)) <> None.
Proof.
  intros Hg.
  assert (hit (x g + 20) (y g + 20) g = true) as Hh.
  { unfold hit.
    assert (Qle_bool
              ((x g + 20 - (x g + 20)) * (x g + 20 - (x g + 20))
               + (y g + 20 - (y g + 20)) * (y g + 20 - (y g + 20))) 225
            = true) as Hc.
    { apply Qle_bool_iff.
      assert ((x g + 20 - (x g + 20)) * (x g + 20 - (x g + 20))
              + (y g + 20 - (y g + 20)) * (y g + 20 - (y g + 20)) == 0)%Q
        as -> by ring.
      discriminate. }
    assert (Qle_bool (x g) (x g + 20) && Qle_bool (x g + 20) (x g + 60)
            && Qle_bool (y g) (y g + 20) && Qle_bool (y g + 20) (y g + 40)
            = true) as Hr.
    { rewrite !andb_true_iff. repeat split.
      - apply Qle_bool_refl_plus. discriminate.
      - apply Qle_bool_iff. apply Qplus_le_r. discriminate.
      - apply Qle_bool_refl_plus. discriminate.
      - apply Qle_bool_iff. apply Qplus_le_r. discriminate. }
    destruct (type g); assumption. }
  split; [exact Hh|].
  intros Hn.
  rewrite (proj1 (handleCanvasMouseDown_none _ _ st) Hn g Hg) in Hh.
  discriminate.
Qed.

Lemma gate_is_hit_at_its_anchor_witness :
  hit (100 + 20) (100 + 20) notGate = true
  /\ selectedGate (after (handleCanvasMouseDown (100 + 20) (100 + 20) loopState))
     <> None.
Proof.
  apply (gate_is_hit_at_its_anchor loopState notGate).
  left; reflexivity.
Defined.

Lemma Forall2_and {A B : Type} (P Q : A -> B -> Prop) (l : list A) (l' : list B) :
  Forall2 P l l' -> Forall2 Q l l' -> Forall2 (fun a b => P a b /\ Q a b) l l'.
Proof.
  intros FP. induction FP; intros FQ; inversion FQ; subst; constructor; auto.
Qed.

Lemma handleCanvasMouseMove_gates cx cy st :
  Forall2 (fun g g' => sameCircuit g g' /\ output g' = output g
                       /\ label g' = label g)
    (gates st) (gates (after (handleCanvasMouseMove cx cy st))).
Proof.
  assert (forall g : Gate,
            sameCircuit g g /\ output g = output g /\ label g = label g) as Hr.
  { intros g. repeat split. }
  unfold handleCanvasMouseMove.
  destruct (falsy (selectedGate st)); unfold quiet; cbn [after gates].
  - induction (gates st); constructor; auto.
  - apply Forall2_map_r. intros g.
    destruct (strictEq (Some (id g)) (selectedGate st)); [|apply Hr].
    repeat split.
Qed.

(** X5.  Moving the pointer never triggers the refresh, changes no wire,
    and changes of the gates only positions: ids, kinds, [inputs], stored
    outputs and labels stay, and every gate evaluates as before. *)
Theorem mouse_move_changes_positions_only cx cy st fuel :
  dispatch fuel (CanvasMouseMove cx cy) st
  = Some (after (handleCanvasMouseMove cx cy st))
  /\ wires (after (handleCanvasMouseMove cx cy st)) = wires st
  /\ Forall2
       (fun g g' =>
          id g' = id g /\ type g' = type g /\ inputs g' = inputs g
          /\ output g' = output g /\ label g' = label g
          /\ forall depth,
               calculateGateOutput depth
                 (gates (after (handleCanvasMouseMove cx cy st)))
                 (wires st) g'
               = calculateGateOutput depth (gates st) (wires st) g)
       (gates st) (gates (after (handleCanvasMouseMove cx cy st))).
Proof.
  pose proof (handleCanvasMouseMove_gates cx cy st) as F.
  assert (Forall2 sameCircuit (gates st)
            (gates (after (handleCanvasMouseMove cx cy st)))) as Fs.
  { eapply Forall2_impl; [|exact F]. simpl. tauto. }
  split; [|split].
  - unfold dispatch. cbn [handle].
    destruct (effectDue st (handleCanvasMouseMove cx cy st)) eqn:E;
      [|reflexivity].
    apply effectDue_key in E. exfalso. destruct E as [E|E].
    + unfold handleCanvasMouseMove in E.
      destruct (falsy (selectedGate st)); discriminate E.
    + apply E. clear E. unfold inputOutputs.
      induction F as [|g g' gs gs' [[_ [Ht _]] [Ho _]] F IH]; [reflexivity|].
      assert (Forall2 sameCircuit gs gs') as Fs'
        by (eapply Forall2_impl; [|exact F]; simpl; tauto).
      simpl. rewrite Ht.
      destruct (GateType_eqb (type g) INPUT); simpl; rewrite ?Ho, (IH Fs');
        reflexivity.
  - unfold handleCanvasMouseMove.
    destruct (falsy (selectedGate st)); reflexivity.
  - eapply Forall2_impl; [|exact F]. simpl.
    intros g g' [HS [Ho Hl]]. pose proof HS as [Hid [Ht [Hi _]]].
    repeat split; auto.
    intros depth. apply calculateGateOutput_sameCircuit; assumption.
Qed.



(** ** New gates *)

Lemma decimal_inj a b : decimal a = decimal b -> a = b.
Proof.
  assert (forall n, NilZero.int_of_string (decimal n) = Some (Z.to_int n)) as P.
  { intros n. unfold decimal. apply NilZero.isi.
    - destruct n; simpl; try discriminate.
      intros H. injection H as H. revert H. apply DecimalPos.Unsigned.to_uint_nonnil.
    - destruct n; simpl; try discriminate.
      intros H. injection H as H. revert H. apply DecimalPos.Unsigned.to_uint_nonnil. }
  intros E. apply DecimalZ.to_int_inj.
  pose proof (P a) as Pa. rewrite E, P in Pa. congruence.
Qed.

Lemma addGate_new_gate t now rx ry st g :
  In g (gates (after (addGate t now rx ry st))) -> ~ In g (gates st) ->
  g = mkGate ("gate-" ++ decimal now) t (100 + rx * 200)%Q (100 + ry * 200)%Q
        (defaultInputs t) false (defaultLabel t).
Proof.
  unfold addGate, quiet. cbn [after gates]. intros Hin Hn.
  apply in_app_iff in Hin. destruct Hin as [Hin|[<-|[]]]; [contradiction|].
  destruct t; reflexivity.
Qed.

(** X7.  Gate ids are the decimal text of the clock: two gates created by
    [addGate] carry the same id exactly when [Date.now()] returned the same
    value for both, whatever their kinds and the states they were added
    to. *)
Theorem new_gates_share_id_iff_same_clock
  t now rx ry st g t' now' rx' ry' st' g' :
  In g (gates (after (addGate t now rx ry st))) -> ~ In g (gates st) ->
  In g' (gates (after (addGate t' now' rx' ry' st'))) -> ~ In g' (gates st') ->
  (id g = id g' <-> now = now').
Proof.
  intros Hg Hn Hg' Hn'.
  rewrite (addGate_new_gate _ _ _ _ _ _ Hg Hn).
  rewrite (addGate_new_gate _ _ _ _ _ _ Hg' Hn'). cbn [id]. split.
  - intros E. apply decimal_inj.
    change ("gate-" ++ decimal now) with
      (String "g" (String "a" (String "t" (String "e" (String "-"
         (decimal now)))))) in E.
    change ("gate-" ++ decimal now') with
      (String "g" (String "a" (String "t" (String "e" (String "-"
         (decimal now')))))) in E.
    injection E as E. exact E.
  - intros ->. reflexivity.
Qed.

Lemma new_gates_share_id_iff_same_clock_witness :
  id freshNotGate = id (mkGate "gate-5" AND 100 100 [None; None] false None)
  <-> 5 = 5.
Proof.
  apply (new_gates_share_id_iff_same_clock
           NOT 5 0 0 initialState freshNotGate
           AND 5 0 0 initialState
           (mkGate "gate-5" AND 100 100 [None; None] false None)).
  - left; reflexivity.
  - intros [].
  - left; reflexivity.
  - intros [].
Defined.



(** ** Toggling twice *)


(** ** Further invariants of the reachable states *)

Lemma Forall2_In_l {A B : Type} (R : A -> B -> Prop) (l : list A) (l' : list B) :
  Forall2 R l l' -> forall a, In a l -> exists b, In b l' /\ R a b.
Proof.
  intros F; induction F as [|a b l l' Hab F IH]; intros a' Ha'.
  - destruct Ha'.
  - destruct Ha' as [<-|Ha'].
    + exists b; split; [left; reflexivity | exact Hab].
    + destruct (IH a' Ha') as [b' [Hb' HR]]. exists b'; split; [right|]; auto.
Qed.

(** The stored output of every AND, OR and OUTPUT gate is false. *)
Lemma dark_handle ev st :
  (forall g, In g (gates st) -> type g <> INPUT -> type g <> NOT ->
             output g = false) ->
  forall g, In g (gates (after (handle ev st))) ->
    type g <> INPUT -> type g <> NOT -> output g = false.
Proof.
  intros HD. destruct ev; cbn [handle].
  - unfold addGate, quiet. cbn [after gates]. intros g Hg.
    apply in_app_iff in Hg. destruct Hg as [Hg|[<-|[]]]; [auto|].
    destruct t; reflexivity.
  - unfold handleCanvasMouseDown.
    destruct (find (hit cx cy) (gates st)); exact HD.
  - unfold handleCanvasMouseMove.
    destruct (falsy (selectedGate st)); [exact HD|].
    unfold quiet. cbn [after gates]. intros g Hg.
    apply in_map_iff in Hg. destruct Hg as [g0 [<- Hg0]].
    destruct (strictEq (Some (id g0)) (selectedGate st));
      [exact (HD g0 Hg0) | exact (HD g0 Hg0)].
  - exact HD.
  - destruct (selectedGate st) as [sel|]; [|exact HD].
    unfold toggleInput, quiet. cbn [after gates]. intros g Hg.
    apply in_map_iff in Hg. destruct Hg as [g0 [<- Hg0]].
    destruct ((id g0 =? sel)%string && GateType_eqb (type g0) INPUT) eqn:E.
    + apply andb_true_iff in E. destruct E as [_ E].
      apply GateType_eqb_eq in E. intros H. contradiction.
    + apply HD; exact Hg0.
  - unfold startConnection.
    destruct (selectedGate st) as [sel|]; [|exact HD].
    destruct (sel =? "")%string; [exact HD|].
    destruct (find (hasId sel) (gates st)) as [g|]; [|exact HD].
    destruct (GateType_eqb (type g) OUTPUT); exact HD.
  - unfold completeConnection.
    destruct (connectingFrom st) as [src|]; [|exact HD].
    destruct (selectedGate st) as [sel|]; [|exact HD].
    destruct (sel =? "")%string; [exact HD|].
    destruct (find (hasId sel) (gates st)) as [g|]; [|exact HD].
    destruct (GateType_eqb (type g) INPUT); [exact HD|].
    destruct (availableInputIndex (wires st) g =? -1); exact HD.
  - unfold deleteSelected.
    destruct (selectedGate st) as [sel|]; [|exact HD].
    destruct (sel =? "")%string; [exact HD|].
    cbn [after gates]. intros g Hg. apply filter_In in Hg. apply HD; tauto.
  - intros g [].
Qed.

Lemma updateCircuit_Inv_outputs fuel st st' :
  Inv st -> updateCircuit fuel st = Some st' ->
  forall g', In g' (gates st') -> output g' = restValue g'.
Proof.
  intros HI H g' Hg'.
  destruct (Forall2_In_r _ _ _ (updateCircuit_gates _ _ _ H) g' Hg')
    as [g [Hg [b [Hb ->]]]].
  destruct fuel as [|fuel]; [discriminate|].
  rewrite (calculateGateOutput_allNull fuel _ _ g (Inv_allNull st g HI Hg))
    in Hb.
  injection Hb as <-. unfold restValue. cbn [withOutput type output].
  destruct (type g) eqn:E; try reflexivity.
Qed.

Lemma reachable_dark st :
  reachable st ->
  forall g, In g (gates st) -> type g <> INPUT -> type g <> NOT ->
    output g = false.
Proof.
  induction 1 as [|st fuel ev st' Hr IH _ Hd].
  - intros g [].
  - unfold dispatch in Hd.
    destruct (effectDue st (handle ev st)).
    + intros g' Hg' Hi Hn.
      rewrite (updateCircuit_Inv_outputs fuel _ _
                 (Inv_handle ev st (reachable_Inv st Hr)) Hd g' Hg').
      unfold restValue. destruct (type g'); congruence.
    + injection Hd as <-. apply dark_handle. exact IH.
Qed.

(** X10.  In every reachable state the stored output of every AND, OR
    and OUTPUT gate is false, and the stored output of every gate that is
    not a NOT gate equals the value the evaluator computes for it.  A
    stored output can differ from the computed one only for a NOT gate
    that stores false. *)
Theorem only_NOT_gates_can_be_stale st g fuel :
  reachable st -> In g (gates st) ->
  (type g = AND \/ type g = OR \/ type g = OUTPUT -> output g = false)
  /\ (type g <> NOT ->
        calculateGateOutput (S fuel) (gates st) (wires st) g
        = Some (output g))
  /\ (calculateGateOutput (S fuel) (gates st) (wires st) g
      <> Some (output g) ->
        type g = NOT /\ output g = false).
Proof.
  intros Hr Hg. pose proof (reachable_Inv st Hr) as HI.
  pose proof (reachable_dark st Hr g Hg) as HD.
  rewrite (calculateGateOutput_allNull fuel _ _ g (Inv_allNull st g HI Hg)).
  unfold restValue. split; [|split].
  - intros [E|[E|E]]; apply HD; rewrite E; discriminate.
  - intros Hn. destruct (type g) eqn:E; try reflexivity; try congruence;
      rewrite HD; congruence.
  - intros Hne. destruct (type g) eqn:E; try congruence;
      try (exfalso; apply Hne; rewrite HD; congruence).
    split; [reflexivity|]. destruct (output g); congruence.
Qed.

Lemma only_NOT_gates_can_be_stale_witness :
  output orGate = false
  /\ calculateGateOutput 1 (gates orState) (wires orState) orGate
     = Some (output orGate).
Proof.
  assert (In orGate (gates orState)) as Hg by (right; left; reflexivity).
  destruct (only_NOT_gates_can_be_stale orState orGate 0 orState_reachable Hg)
    as [H1 [H2 _]].
  split.
  - apply H1. right; left; reflexivity.
  - apply H2. discriminate.
Defined.

(** X11.  Every event that triggers the refresh, taken from a reachable
    state, yields a state in which the stored output of every gate is the
    value the evaluator computes for it. *)
Theorem refresh_leaves_no_stale_output st ev fuel :
  reachable st -> effectDue st (handle ev st) = true ->
  exists st',
    dispatch (S fuel) ev st = Some st'
    /\ forall g, In g (gates st') ->
         calculateGateOutput (S fuel) (gates st') (wires st') g
         = Some (output g).
Proof.
  intros Hr He. pose proof (reachable_Inv st Hr) as HI.
  destruct (dispatch_Inv_total fuel ev st HI) as [st' Hd].
  exists st'. split; [exact Hd|].
  exact (dispatch_refresh_consistent _ _ _ _ He Hd).
Qed.

Lemma refresh_leaves_no_stale_output_witness :
  exists st',
    dispatch 1 DeleteButton orState = Some st'
    /\ forall g, In g (gates st') ->
         calculateGateOutput 1 (gates st') (wires st') g = Some (output g).
Proof.
  apply (refresh_leaves_no_stale_output orState DeleteButton 0).
  - exact orState_reachable.
  - reflexivity.
Defined.

(** X12.  In every reachable state the gate a wire leads to exists, is
    not an INPUT gate, and has its two or one input slots as [addGate]
    made them; the wire's slot index is within that arity. *)
Theorem wire_destinations_exist st w :
  reachable st -> In w (wires st) ->
  exists g,
    find (hasId (to_gateId (to w))) (gates st) = Some g
    /\ In g (gates st) /\ id g = to_gateId (to w)
    /\ type g <> INPUT
    /\ length (inputs g)
       = match type g with AND | OR => 2%nat | _ => 1%nat end
    /\ 0 <= inputIndex (to w) < Z.of_nat (length (inputs g)).
Proof.
  intros Hr Hw. pose proof (reachable_Inv st Hr) as HI.
  destruct (inv_dest st HI w Hw) as [g [Hf Ht]].
  pose proof (find_some _ _ Hf) as [Hin _].
  exists g. split; [exact Hf|]. split; [exact Hin|].
  split; [exact (find_hasId_id _ _ _ Hf)|]. split; [exact Ht|].
  rewrite (inv_inputs st HI g Hin), (inv_slot0 st HI w Hw).
  destruct (type g); simpl; split; (reflexivity || lia).
Qed.

Lemma wire_destinations_exist_witness :
  exists g,
    find (hasId "gate-2") (gates orState) = Some g /\ type g <> INPUT.
Proof.
  destruct (wire_destinations_exist orState
              (mkWire "wire-3" (mkFrom "gate-1" true) (mkTo "gate-2" 0))
              orState_reachable (or_introl eq_refl))
    as [g [Hf [_ [_ [Ht _]]]]].
  exists g. split; [exact Hf | exact Ht].
Defined.

Lemma NoDup_map_inj_on {A B : Type} (f : A -> B) (l : list A) :
  (forall a b, In a l -> In b l -> f a = f b -> a = b) ->
  NoDup l -> NoDup (map f l).
Proof.
  intros Hinj Hn. induction Hn as [|a l Ha Hn IH]; simpl; constructor.
  - intros H. apply in_map_iff in H. destruct H as [b [E Hb]].
    assert (b = a) as -> by (apply Hinj; simpl; auto).
    contradiction.
  - apply IH. intros a' b' Ha' Hb'. apply Hinj; right; assumption.
Qed.

(** X13.  A reachable circuit never has more wires than it has gates that
    are not INPUT gates: each such gate takes at most one wire. *)
Theorem at_most_one_wire_per_gate st :
  reachable st ->
  (length (wires st)
   <= length (filter (fun g => negb (GateType_eqb (type g) INPUT)) (gates st)))%nat
  /\ (length (wires st) <= length (gates st))%nat.
Proof.
  intros Hr. pose proof (reachable_Inv st Hr) as HI.
  assert (length (wires st)
          <= length (filter (fun g => negb (GateType_eqb (type g) INPUT))
                       (gates st)))%nat as H.
  { rewrite <- (length_map (fun w => to_gateId (to w)) (wires st)).
    rewrite <- (length_map id
                  (filter (fun g => negb (GateType_eqb (type g) INPUT))
                     (gates st))).
    apply NoDup_incl_length.
    - rewrite <- (map_map to to_gateId).
      apply NoDup_map_inj_on; [|exact (inv_single st HI)].
      intros a b Ha Hb E.
      apply in_map_iff in Ha. destruct Ha as [wa [<- Hwa]].
      apply in_map_iff in Hb. destruct Hb as [wb [<- Hwb]].
      pose proof (inv_slot0 st HI wa Hwa) as Ia.
      pose proof (inv_slot0 st HI wb Hwb) as Ib.
      destruct (to wa), (to wb). simpl in *. congruence.
    - intros i Hi. apply in_map_iff in Hi. destruct Hi as [w [<- Hw]].
      destruct (inv_dest st HI w Hw) as [g [Hf Ht]].
      apply in_map_iff. exists g. split; [exact (find_hasId_id _ _ _ Hf)|].
      apply filter_In. split; [exact (proj1 (find_some _ _ Hf))|].
      destruct (GateType_eqb (type g) INPUT) eqn:E; [|reflexivity].
      apply GateType_eqb_eq in E. contradiction. }
  split; [exact H|].
  eapply Nat.le_trans; [exact H | apply filter_length_le].
Qed.

Lemma at_most_one_wire_per_gate_witness :
  (length (wires orState) <= length (gates orState))%nat.
Proof.
  exact (proj2 (at_most_one_wire_per_gate orState orState_reachable)).
Defined.

Ltac same_selection HS Hsel :=
  let i := fresh "i" in
  let Hi := fresh "Hi" in
  intros i Hi; unfold quiet, cancelConnection in *;
  cbn [after gates selectedGate] in *; rewrite ?Hsel in Hi; exact (HS i Hi).

Lemma selected_handle ev st :
  (forall i, selectedGate st = Some i -> exists g, In g (gates st) /\ id g = i) ->
  forall i, selectedGate (after (handle ev st)) = Some i ->
    exists g, In g (gates (after (handle ev st))) /\ id g = i.
Proof.
  intros HS. destruct ev; cbn [handle].
  - unfold addGate, quiet. cbn [after gates selectedGate]. intros i Hi.
    destruct (HS i Hi) as [g [Hg E]]. exists g. split; [|exact E].
    apply in_app_iff; left; exact Hg.
  - unfold handleCanvasMouseDown.
    destruct (find (hit cx cy) (gates st)) as [c|] eqn:Hf;
      unfold quiet; cbn [after gates selectedGate]; intros i Hi.
    + injection Hi as <-. exists c. split; [|reflexivity].
      exact (proj1 (find_some _ _ Hf)).
    + discriminate.
  - unfold handleCanvasMouseMove.
    destruct (falsy (selectedGate st)); [exact HS|].
    unfold quiet. cbn [after gates selectedGate]. intros i Hi.
    destruct (HS i Hi) as [g [Hg E]].
    eexists. split; [apply in_map; exact Hg|].
    destruct (strictEq (Some (id g)) (selectedGate st)); exact E.
  - exact HS.
  - destruct (selectedGate st) as [sel|] eqn:Hsel;
      [|same_selection HS Hsel].
    unfold toggleInput, quiet. cbn [after gates selectedGate]. intros i Hi.
    rewrite Hsel in Hi. destruct (HS i Hi) as [g [Hg E]].
    eexists. split; [apply in_map; exact Hg|].
    destruct ((id g =? sel)%string && GateType_eqb (type g) INPUT); exact E.
  - unfold startConnection.
    destruct (selectedGate st) as [sel|] eqn:Hsel;
      [|same_selection HS Hsel].
    destruct (sel =? "")%string; [same_selection HS Hsel|].
    destruct (find (hasId sel) (gates st)) as [g|];
      [|same_selection HS Hsel].
    destruct (GateType_eqb (type g) OUTPUT); same_selection HS Hsel.
  - unfold completeConnection.
    destruct (connectingFrom st) as [src|]; [|exact HS].
    destruct (selectedGate st) as [sel|] eqn:Hsel;
      [|same_selection HS Hsel].
    destruct (sel =? "")%string; [same_selection HS Hsel|].
    destruct (find (hasId sel) (gates st)) as [g|];
      [|same_selection HS Hsel].
    destruct (GateType_eqb (type g) INPUT); [same_selection HS Hsel|].
    destruct (availableInputIndex (wires st) g =? -1);
      same_selection HS Hsel.
  - unfold deleteSelected.
    destruct (selectedGate st) as [sel|] eqn:Hsel;
      [|same_selection HS Hsel].
    destruct (sel =? "")%string; [same_selection HS Hsel|].
    cbn [after selectedGate]. discriminate.
  - cbn [clearCircuit after selectedGate]. discriminate.
Qed.

Lemma reachable_selected st :
  reachable st ->
  forall i, selectedGate st = Some i -> exists g, In g (gates st) /\ id g = i.
Proof.
  induction 1 as [|st fuel ev st' Hr IH _ Hd].
  - discriminate.
  - unfold dispatch in Hd.
    pose proof (selected_handle ev st IH) as HS.
    destruct (effectDue st (handle ev st)).
    + intros i Hi.
      assert (selectedGate st' = selectedGate (after (handle ev st))) as Es.
      { unfold updateCircuit in Hd. destruct (mapOpt _ _); [|discriminate].
        injection Hd as <-. reflexivity. }
      rewrite Es in Hi. destruct (HS i Hi) as [g [Hg E]].
      destruct (Forall2_In_l _ _ _ (updateCircuit_sameShape _ _ _ Hd) g Hg)
        as [g' [Hg' [Hid _]]].
      exists g'. split; [exact Hg' | congruence].
    + injection Hd as <-. exact HS.
Qed.

(** X14.  In every reachable state the selection, when there is one, is
    the non-empty id of a gate of the circuit: the handlers' tests
    [!selectedGate] and [!gate] never fire on a selected id. *)
Theorem selection_names_a_gate st sel :
  reachable st -> selectedGate st = Some sel ->
  falsy (selectedGate st) = false
  /\ exists g, find (hasId sel) (gates st) = Some g
               /\ In g (gates st) /\ id g = sel.
Proof.
  intros Hr Hsel. pose proof (reachable_Inv st Hr) as HI.
  destruct (reachable_selected st Hr sel Hsel) as [g0 [Hg0 E0]].
  split.
  - rewrite Hsel. simpl. apply String.eqb_neq. rewrite <- E0.
    exact (inv_ids st HI g0 Hg0).
  - destruct (find (hasId sel) (gates st)) as [g|] eqn:Hf.
    + exists g. split; [reflexivity|].
      split; [exact (proj1 (find_some _ _ Hf)) | exact (find_hasId_id _ _ _ Hf)].
    + exfalso. pose proof (find_none _ _ Hf g0 Hg0) as Hn.
      unfold hasId in Hn. rewrite E0, String.eqb_refl in Hn. discriminate.
Qed.

Lemma selection_names_a_gate_witness :
  exists g, find (hasId "gate-2") (gates orState) = Some g
            /\ In g (gates orState) /\ id g = "gate-2".
Proof.
  exact (proj2 (selection_names_a_gate orState "gate-2" orState_reachable
                  eq_refl)).
Defined.

(** ** Connections, continued *)

(** X15.  In a reachable state with a connection pending from [src] and a
    selected gate that is not an INPUT gate and has no wire at slot 0,
    Connect To appends exactly the wire from [src] to slot 0 of the
    selected gate, ends the pending connection and raises no alert.  The
    source is not looked up: it may be the selected gate itself, or a gate
    that no longer exists. *)
Theorem completeConnection_adds_slot0_wire st now src sel g :
  reachable st ->
  connectingFrom st = Some src -> selectedGate st = Some sel ->
  find (hasId sel) (gates st) = Some g -> type g <> INPUT ->
  existsb (terminatesAt sel 0) (wires st) = false ->
  completeConnection now st
  = mkHandled
      (mkState (gates st)
         (wires st
          ++ [mkWire ("wire-" ++ decimal now) (mkFrom src true) (mkTo sel 0)])
         (Some sel) None (dragOffset st))
      true None.
Proof.
  intros Hr Hsrc Hsel Hf Ht He. pose proof (reachable_Inv st Hr) as HI.
  pose proof (find_some _ _ Hf) as [Hin _].
  pose proof (find_hasId_id _ _ _ Hf) as Hid.
  unfold completeConnection. rewrite Hsrc, Hsel.
  assert ((sel =? "")%string = false) as ->.
  { apply String.eqb_neq. rewrite <- Hid. exact (inv_ids st HI g Hin). }
  rewrite Hf.
  assert (GateType_eqb (type g) INPUT = false) as ->.
  { destruct (GateType_eqb (type g) INPUT) eqn:E; [|reflexivity].
    apply GateType_eqb_eq in E. contradiction. }
  rewrite (availableInputIndex_default _ _ (inv_inputs st HI g Hin)).
  rewrite Hid, He. reflexivity.
Qed.

Lemma completeConnection_adds_slot0_wire_witness :
  wires (after (completeConnection 6 pendingState))
  = [mkWire "wire-6" (mkFrom "gate-5" true) (mkTo "gate-5" 0)].
Proof.
  assert (reachable pendingState) as Hr.
  { apply (run_reachable 1
             [AddGateButton NOT 5 0 0; CanvasMouseDown 110 110;
              ConnectFromButton] initialState _ reachable_init).
    reflexivity. }
  assert (type freshNotGate <> INPUT) as Ht by discriminate.
  rewrite (completeConnection_adds_slot0_wire pendingState 6 "gate-5" "gate-5"
             freshNotGate Hr eq_refl eq_refl eq_refl Ht eq_refl).
  reflexivity.
Defined.

(** X16.  Connect From, in a reachable state with a gate selected, makes
    the selected gate the source of the pending connection unless it is an
    OUTPUT gate, in which case nothing changes; gates, wires and selection
    are untouched either way. *)
Theorem startConnection_sets_source st sel :
  reachable st -> selectedGate st = Some sel ->
  exists g,
    find (hasId sel) (gates st) = Some g
    /\ startConnection st
       = quiet (mkState (gates st) (wires st) (selectedGate st)
                  (if GateType_eqb (type g) OUTPUT then connectingFrom st
                   else Some sel)
                  (dragOffset st)).
Proof.
  intros Hr Hsel. pose proof (reachable_Inv st Hr) as HI.
  destruct (reachable_selected st Hr sel Hsel) as [g0 [Hg0 E0]].
  destruct (find (hasId sel) (gates st)) as [g|] eqn:Hf.
  - exists g. split; [reflexivity|].
    unfold startConnection. rewrite Hsel.
    assert ((sel =? "")%string = false) as ->.
    { apply String.eqb_neq. rewrite <- E0. exact (inv_ids st HI g0 Hg0). }
    rewrite Hf. destruct (GateType_eqb (type g) OUTPUT); [|reflexivity].
    rewrite <- Hsel. destruct st; reflexivity.
  - exfalso. pose proof (find_none _ _ Hf g0 Hg0) as Hn.
    unfold hasId in Hn. rewrite E0, String.eqb_refl in Hn. discriminate.
Qed.

Lemma startConnection_sets_source_witness :
  exists g,
    find (hasId "gate-2") (gates orState) = Some g
    /\ connectingFrom (after (startConnection orState))
       = (if GateType_eqb (type g) OUTPUT then None else Some "gate-2").
Proof.
  destruct (startConnection_sets_source orState "gate-2" orState_reachable
              eq_refl) as [g [Hf E]].
  exists g. split; [exact Hf|]. rewrite E. reflexivity.
Defined.

Lemma find_hasId_filter_self sel gs :
  find (hasId sel) (filter (fun g => negb (id g =? sel)%string) gs) = None.
Proof.
  induction gs as [|g gs IH]; simpl; [reflexivity|].
  destruct (id g =? sel)%string eqn:E; simpl; [exact IH|].
  unfold hasId at 1. rewrite E. exact IH.
Qed.

(** X17.  Deleting the selected gate does not end a connection pending
    from it: the pending source stays, naming a gate that is gone, so the
    next Connect To draws a wire from a gate that does not exist. *)
Theorem delete_keeps_pending_connection st sel :
  selectedGate st = Some sel -> sel <> "" -> connectingFrom st = Some sel ->
  connectingFrom (after (deleteSelected st)) = Some sel
  /\ find (hasId sel) (gates (after (deleteSelected st))) = None
  /\ available DeleteButton st = true.
Proof.
  intros Hsel Hne Hsrc. unfold deleteSelected, available, falsy.
  rewrite Hsel. apply String.eqb_neq in Hne. rewrite Hne.
  cbn [after connectingFrom gates negb]. split; [exact Hsrc|].
  split; [apply find_hasId_filter_self | reflexivity].
Qed.

Lemma delete_keeps_pending_connection_witness :
  connectingFrom (after (deleteSelected pendingState)) = Some "gate-5"
  /\ find (hasId "gate-5") (gates (after (deleteSelected pendingState))) = None.
Proof.
  assert ("gate-5" <> "") as Hne by discriminate.
  destruct (delete_keeps_pending_connection pendingState "gate-5"
              eq_refl Hne eq_refl) as [H1 [H2 _]].
  split; [exact H1 | exact H2].
Defined.

Lemma danglingState_run : run 1 danglingTrace initialState = Some danglingState.
Proof. reflexivity. Qed.

(** A reachable state with a wire whose source gate does not exist; the
    wire occupies slot 0 of the AND gate all the same. *)
Lemma dangling_source_is_reachable :
  reachable danglingState
  /\ exists w,
       In w (wires danglingState)
       /\ find (hasId (from_gateId (from w))) (gates danglingState) = None
       /\ existsb (terminatesAt (to_gateId (to w)) 0) (wires danglingState)
          = true.
Proof.
  split.
  - exact (run_reachable 1 danglingTrace _ _ reachable_init danglingState_run).
  - eexists. split; [left; reflexivity|]. split; reflexivity.
Qed.

(** X18.  Clear All, from any state whatever and at any recursion depth,
    yields the empty circuit with nothing selected and nothing pending;
    afterwards none of the buttons of the selection panel is offered. *)
Theorem clear_resets_everything st fuel :
  dispatch fuel ClearAllButton st
  = Some (mkState [] [] None None (dragOffset st))
  /\ available ToggleInputButton (after (clearCircuit st)) = false
  /\ available ConnectFromButton (after (clearCircuit st)) = false
  /\ (forall now, available (ConnectToButton now) (after (clearCircuit st))
                  = false)
  /\ available DeleteButton (after (clearCircuit st)) = false.
Proof.
  split; [|repeat split].
  unfold dispatch, effectDue. cbn [handle clearCircuit setWiresCalled orb].
  cbn [after]. unfold updateCircuit. reflexivity.
Qed.

(** ** Drawing the wires *)

(** X19.  In a reachable state a wire is drawn exactly when its source
    gate exists.  A drawn wire runs from 60 right and 20 below the source
    gate's position to the destination gate's left edge 10 below its
    position, the height of slot 0, and is green exactly when the source
    gate's stored output is true. *)
Theorem wire_drawn_when_source_exists st w :
  reachable st -> In w (wires st) ->
  (wireSegment (gates st) w = None
   <-> find (hasId (from_gateId (from w))) (gates st) = None)
  /\ forall seg, wireSegment (gates st) w = Some seg ->
       exists fromGate toGate,
         find (hasId (from_gateId (from w))) (gates st) = Some fromGate
         /\ find (hasId (to_gateId (to w))) (gates st) = Some toGate
         /\ fromX seg = (x fromGate + 60)%Q
         /\ fromY seg = (y fromGate + 20)%Q
         /\ toX seg = x toGate
         /\ (toY seg == y toGate + 10)%Q
         /\ (strokeStyle seg = "#4ade80" <-> output fromGate = true).
Proof.
  intros Hr Hw. pose proof (reachable_Inv st Hr) as HI.
  destruct (inv_dest st HI w Hw) as [tg [Hto _]].
  pose proof (inv_slot0 st HI w Hw) as H0.
  unfold wireSegment. rewrite Hto, H0.
  destruct (find (hasId (from_gateId (from w))) (gates st)) as [fg|].
  - split; [split; discriminate|].
    intros seg E. injection E as <-. exists fg, tg.
    cbn [fromX fromY toX toY strokeStyle]. repeat split; try reflexivity.
    + ring.
    + destruct (output fg); [reflexivity | discriminate].
    + intros ->. reflexivity.
  - split; [split; reflexivity | discriminate].
Qed.

Lemma wire_drawn_when_source_exists_witness :
  wireSegment (gates danglingState)
    (mkWire "wire-7" (mkFrom "gate-5" true) (mkTo "gate-6" 0))
  = None.
Proof.
  apply (proj1 (wire_drawn_when_source_exists danglingState
                  (mkWire "wire-7" (mkFrom "gate-5" true) (mkTo "gate-6" 0))
                  (proj1 dangling_source_is_reachable)
                  (or_introl eq_refl))).
  reflexivity.
Defined.

(** ** The evaluator on filled-in slots *)

Lemma mapIdxFrom_length {A B : Type} (f : A -> Z -> option B) (l : list A) :
  forall i bs, mapIdxFrom f l i = Some bs -> length bs = length l.
Proof.
  induction l as [|a l IH]; simpl; intros i bs H.
  - injection H as <-. reflexivity.
  - destruct (f a i); [|discriminate].
    destruct (mapIdxFrom f l (i + 1)) as [bs'|] eqn:E; [|discriminate].
    injection H as <-. simpl. f_equal. exact (IH _ _ E).
Qed.

(** X20.  An AND or OR gate whose [inputs] array does not have exactly
    two entries never evaluates to true. *)
Theorem two_slots_or_false fuel gs ws g b :
  type g = AND \/ type g = OR -> length (inputs g) <> 2%nat ->
  calculateGateOutput fuel gs ws g = Some b -> b = false.
Proof.
  intros Ht Hl H. destruct fuel as [|fuel]; [discriminate|].
  cbn [calculateGateOutput] in H.
  destruct (mapIdxFrom _ (inputs g) 0) as [vs|] eqn:E;
    [|destruct Ht as [Ht|Ht]; rewrite Ht in H; discriminate].
  apply mapIdxFrom_length in E.
  assert ((length vs =? 2)%nat = false) as El
    by (apply Nat.eqb_neq; congruence).
  destruct Ht as [Ht|Ht]; rewrite Ht in H; rewrite El in H;
    injection H as <-; reflexivity.
Qed.

Lemma two_slots_or_false_witness :
  calculateGateOutput 2
    [inputGate; mkGate "gate-9" OR 300 100 [Some "gate-1"] false None]
    [drivenWire]
    (mkGate "gate-9" OR 300 100 [Some "gate-1"] false None)
  = Some false
  /\ false = false.
Proof.
  split; [reflexivity|].
  apply (two_slots_or_false 2
           [inputGate; mkGate "gate-9" OR 300 100 [Some "gate-1"] false None]
           [drivenWire]
           (mkGate "gate-9" OR 300 100 [Some "gate-1"] false None) false).
  - right; reflexivity.
  - discriminate.
  - reflexivity.
Defined.

(** X21.  A gate every wire into which comes from a gate that does not
    exist evaluates as an unconnected gate does: AND, OR and OUTPUT to
    false, NOT to true, whatever its [inputs] entries are. *)
Theorem missing_sources_read_false fuel gs ws g :
  (forall idx w, find (terminatesAt (id g) idx) ws = Some w ->
     find (hasId (from_gateId (from w))) gs = None) ->
  calculateGateOutput (S fuel) gs ws g = Some (restValue g).
Proof.
  intros H. apply calculateGateOutput_slots_false. intros i j _.
  destruct (falsy i); [reflexivity|].
  destruct (find (terminatesAt (id g) j) ws) as [w|] eqn:Hw; [|reflexivity].
  rewrite (H j w Hw). reflexivity.
Qed.

Lemma missing_sources_read_false_witness :
  calculateGateOutput 1 [drivenNot] [drivenWire] drivenNot = Some true.
Proof.
  apply (missing_sources_read_false 0 [drivenNot] [drivenWire] drivenNot).
  intros idx w Hw. simpl in Hw.
  destruct (terminatesAt "gate-9" idx drivenWire); [|discriminate].
  injection Hw as <-. reflexivity.
Defined.

(** X22.  An AND or OR gate with both [inputs] entries filled in, a wire
    into each of its two slots and both source gates present yields the
    conjunction, respectively the disjunction, of the values of the two
    source gates, computed one level deeper. *)
Theorem two_input_gate_combines_sources fuel gs ws g a b w0 w1 s0 s1 v0 v1 :
  type g = AND \/ type g = OR ->
  inputs g = [Some a; Some b] -> a <> "" -> b <> "" ->
  find (terminatesAt (id g) 0) ws = Some w0 ->
  find (terminatesAt (id g) 1) ws = Some w1 ->
  find (hasId (from_gateId (from w0))) gs = Some s0 ->
  find (hasId (from_gateId (from w1))) gs = Some s1 ->
  calculateGateOutput fuel gs ws s0 = Some v0 ->
  calculateGateOutput fuel gs ws s1 = Some v1 ->
  calculateGateOutput (S fuel) gs ws g
  = Some (match type g with AND => v0 && v1 | _ => v0 || v1 end).
Proof.
  intros Ht Hi Ha Hb Hw0 Hw1 Hs0 Hs1 Hv0 Hv1.
  apply String.eqb_neq in Ha, Hb.
  cbn [calculateGateOutput]. rewrite Hi. cbn [mapIdxFrom falsy].
  rewrite Ha, Hb. change (0 + 1) with 1.
  rewrite Hw0, Hw1, Hs0, Hs1, Hv0, Hv1.
  destruct Ht as [Ht|Ht]; rewrite Ht; reflexivity.
Qed.

Lemma two_input_gate_combines_sources_witness :
  calculateGateOutput 2 [inputA; inputB; drivenAnd] [wireA; wireB] drivenAnd
  = Some false.
Proof.
  assert ("gate-1" <> "") as Ha by discriminate.
  assert ("gate-2" <> "") as Hb by discriminate.
  exact (two_input_gate_combines_sources 1 [inputA; inputB; drivenAnd]
           [wireA; wireB] drivenAnd "gate-1" "gate-2" wireA wireB
           inputA inputB true false
           (or_introl eq_refl) eq_refl Ha Hb eq_refl eq_refl eq_refl eq_refl
           eq_refl eq_refl).
Defined.
